(** * A learning Ethernet switch: the model of [Switch.cpp] and its properties

    The development embeds the class [Switch] of [Switch.h] / [Switch.cpp]
    and the struct [Frame] of [Frame.h] as pure functions on an explicit
    switch state, and states the properties of the address table, of the
    forwarding decision and of aging over that embedding.

    Conventions of the embedding.
    - [int] values (ports, counters, the aging timeout) are integers of [Z].
      The counters are only ever incremented; signed overflow is undefined
      behaviour in C++ and is outside the model.
    - [std::string] is [string], compared character by character, as
      [std::string::operator==] and the hash map's key equality do.
    - [std::unordered_map<std::string, MACTableEntry>] is a finite map
      [gmap string MACTableEntry]; its iteration order is unspecified in C++
      and nothing below depends on it.
    - [std::chrono::steady_clock::now()] is an input of the environment: every
      member function that reads the clock takes the reading as the extra
      argument [now], a [time_point] counted in clock ticks.  Each call of
      [processFrame] reads the clock exactly once (in whichever of the three
      learning branches it takes), [cleanupTable] reads it once when aging is
      enabled.
    - Console output is kept as data: the learning line and the forwarding
      line printed by [processFrame], the number of removed entries
      reported by [cleanupTable], and the rows listed by [printMACTable].
      Colours and banners are dropped.  [printStatistics] prints the four
      counters, the table size and two rates computed in floating point; it
      changes nothing and is not modelled, the counters it prints are. *)

From stdpp Require Import base decidable option list list_numbers strings gmap fin_maps.
From Stdlib Require Import ZArith Lia Sorted Ascii String.

Local Open Scope Z_scope.

(** ** Frame.h *)

Record Frame := mkFrame {
  sourceMAC : string;
  destMAC : string;
  etherType : string;
  payload : string;
}.

(** The constructor [Frame(src, dest, type, data)] is [mkFrame]; [type]
    defaults to "IPv4" and [data] to the empty string, which gives the two
    shorter forms. *)
Definition Frame_ctor2 (src dest : string) : Frame :=
  mkFrame src dest "IPv4" EmptyString.
Definition Frame_ctor3 (src dest type : string) : Frame :=
  mkFrame src dest type EmptyString.

(** ** The clock *)

(** A [steady_clock::time_point] is a number of ticks.  The tick period is
    [std::chrono::steady_clock::period], which libstdc++, libc++ and the MSVC
    library all define as [std::nano]; the general results below use only
    that it is positive. *)
Definition time_point := Z.

Definition ticks_per_second : Z := 1000000000.

(** [duration_cast<seconds>(d).count()]: integer division truncating toward
    zero. *)
Definition duration_cast_seconds (d : Z) : Z := Z.quot d ticks_per_second.

(** ** Switch.h: the state *)

Record MACTableEntry := mkEntry {
  port : Z;
  timestamp : time_point;
}.

(** [MACTableEntry(int p)]: the time stamp is the clock reading at
    construction. *)
Definition MACTableEntry_ctor (p : Z) (now : time_point) : MACTableEntry :=
  mkEntry p now.

Record Switch := mkSwitch {
  macTable : gmap string MACTableEntry;
  numPorts : Z;
  agingTimeout : Z;
  currentCycle : Z;
  framesProcessed : Z;
  learningEvents : Z;
  forwardingEvents : Z;
  floodingEvents : Z;
}.

Definition set_macTable (t : gmap string MACTableEntry) (s : Switch) : Switch :=
  mkSwitch t (numPorts s) (agingTimeout s) (currentCycle s)
           (framesProcessed s) (learningEvents s) (forwardingEvents s) (floodingEvents s).
(** The increments [currentCycle++], [framesProcessed++], [learningEvents++],
    [forwardingEvents++] and [floodingEvents++] on [int] members.  They are
    the successor on the integers, which is what [++] computes as long as the
    member is below [INT_MAX]; at [INT_MAX] the C++ increment overflows, which
    is undefined behaviour, and the model says nothing about the program.
    Statements about one call hold for a call whose increments start below
    [INT_MAX]; statements about whole runs carry the condition
    [run_within_int] defined below. *)
Definition incr_currentCycle (s : Switch) : Switch :=
  mkSwitch (macTable s) (numPorts s) (agingTimeout s) (currentCycle s + 1)
           (framesProcessed s) (learningEvents s) (forwardingEvents s) (floodingEvents s).
Definition incr_framesProcessed (s : Switch) : Switch :=
  mkSwitch (macTable s) (numPorts s) (agingTimeout s) (currentCycle s)
           (framesProcessed s + 1) (learningEvents s) (forwardingEvents s) (floodingEvents s).
Definition incr_learningEvents (s : Switch) : Switch :=
  mkSwitch (macTable s) (numPorts s) (agingTimeout s) (currentCycle s)
           (framesProcessed s) (learningEvents s + 1) (forwardingEvents s) (floodingEvents s).
Definition incr_forwardingEvents (s : Switch) : Switch :=
  mkSwitch (macTable s) (numPorts s) (agingTimeout s) (currentCycle s)
           (framesProcessed s) (learningEvents s) (forwardingEvents s + 1) (floodingEvents s).
Definition incr_floodingEvents (s : Switch) : Switch :=
  mkSwitch (macTable s) (numPorts s) (agingTimeout s) (currentCycle s)
           (framesProcessed s) (learningEvents s) (forwardingEvents s) (floodingEvents s + 1).

(** [Switch::Switch(int ports = 8, int timeout = 300)] *)
Definition Switch_ctor (ports timeout : Z) : Switch :=
  mkSwitch ∅ ports timeout 0 0 0 0 0.
Definition Switch_default : Switch := Switch_ctor 8 300.

(** ** What [processFrame] prints *)

(** The line of the learning phase: "LEARNING: Added ...", "UPDATE: ... moved
    from Port old ..." or "REFRESH: ...". *)
Inductive LearnLine :=
| LEARNING
| UPDATE (oldPort : Z)
| REFRESH.

(** The line of the forwarding decision, with the "Flooding ports:" list
    where one is printed. *)
Inductive ForwardLine :=
| BROADCAST (ports : list Z)
| FILTERING
| FORWARDING (outPort : Z)
| UNKNOWN_UNICAST (ports : list Z).

(** ** Switch.cpp *)

Definition BROADCAST_MAC : string := "FF:FF:FF:FF:FF:FF".

(** [for (int i = 1; i <= numPorts; i++) if (i != incomingPort) cout << i] *)
Definition flooding_ports (nPorts incomingPort : Z) : list Z :=
  filter (λ i, i ≠ incomingPort) (seqZ 1 nPorts).

(** Step 1 of [processFrame], the learning phase. *)
Definition learning_phase (src : string) (incomingPort : Z) (now : time_point)
    (s : Switch) : Switch * LearnLine :=
  match macTable s !! src with
  | None =>
      (incr_learningEvents
         (set_macTable (<[src := MACTableEntry_ctor incomingPort now]> (macTable s)) s),
       LEARNING)
  | Some e =>
      if decide (port e ≠ incomingPort)
      then (set_macTable (<[src := mkEntry incomingPort now]> (macTable s)) s,
            UPDATE (port e))
      else (set_macTable (<[src := mkEntry (port e) now]> (macTable s)) s,
            REFRESH)
  end.

(** Step 2 of [processFrame], the forwarding decision. *)
Definition forwarding_decision (dest : string) (incomingPort : Z)
    (s : Switch) : Switch * ForwardLine :=
  if decide (dest = BROADCAST_MAC)
  then (incr_floodingEvents s, BROADCAST (flooding_ports (numPorts s) incomingPort))
  else
    match macTable s !! dest with
    | Some e =>
        let outPort := port e in
        if decide (outPort = incomingPort)
        then (s, FILTERING)
        else (incr_forwardingEvents s, FORWARDING outPort)
    | None =>
        (incr_floodingEvents s,
         UNKNOWN_UNICAST (flooding_ports (numPorts s) incomingPort))
    end.

(** [void Switch::processFrame(const std::string&, const std::string&, int)] *)
Definition processFrame (src dest : string) (incomingPort : Z) (now : time_point)
    (s : Switch) : Switch * (LearnLine * ForwardLine) :=
  let s0 := incr_framesProcessed s in
  let '(s1, l) := learning_phase src incomingPort now s0 in
  let '(s2, f) := forwarding_decision dest incomingPort s1 in
  (s2, (l, f)).

(** The state in which the forwarding decision of [processFrame] runs: the
    frame has been counted and the learning phase is over. *)
Definition after_learning (src : string) (incomingPort : Z) (now : time_point)
    (s : Switch) : Switch :=
  (learning_phase src incomingPort now (incr_framesProcessed s)).1.

(** [void Switch::processFrame(const Frame&, int)] *)
Definition processFrame_Frame (frame : Frame) (incomingPort : Z) (now : time_point)
    (s : Switch) : Switch * (LearnLine * ForwardLine) :=
  processFrame (sourceMAC frame) (destMAC frame) incomingPort now s.

(** The body of the loop of [cleanupTable] for one entry: [elapsed] is the
    age in whole seconds, and the entry is erased when it exceeds the
    timeout. *)
Definition elapsed (now : time_point) (e : MACTableEntry) : Z :=
  duration_cast_seconds (now - timestamp e).

Definition cleanup_entry (now : time_point) (timeout : Z) (mac : string)
    (e : MACTableEntry) (acc : gmap string MACTableEntry * Z)
    : gmap string MACTableEntry * Z :=
  if decide (elapsed now e > timeout)
  then (delete mac acc.1, acc.2 + 1)
  else acc.

(** [void Switch::cleanupTable()]; the second component is [removed]. *)
Definition cleanupTable (now : time_point) (s : Switch) : Switch * Z :=
  if decide (agingTimeout s <= 0) then (s, 0)
  else
    let r := map_fold (cleanup_entry now (agingTimeout s)) (macTable s, 0) (macTable s) in
    (set_macTable r.1 s, r.2).

(** [void Switch::clearMACTable()] *)
Definition clearMACTable (s : Switch) : Switch := set_macTable ∅ s.

(** [void Switch::advanceCycle()] *)
Definition advanceCycle (s : Switch) : Switch := incr_currentCycle s.

(** [int Switch::getMACTableSize() const] *)
Definition getMACTableSize (s : Switch) : Z := Z.of_nat (size (macTable s)).

(** [bool Switch::isLearned(const std::string&) const] *)
Definition isLearned (mac : string) (s : Switch) : bool :=
  bool_decide (is_Some (macTable s !! mac)).

(** [macTable.find(mac)] followed by [->second.port]: the port an address is
    known at, if any. *)
Definition lookup_port (mac : string) (s : Switch) : option Z :=
  port <$> macTable s !! mac.

(** ** The public interface as a transition system *)

(** The state-changing member functions.  The calls carry the arguments the
    caller passes; none of them is a time. *)
Inductive Call :=
| CallProcessFrameF (frame : Frame) (incomingPort : Z)
| CallProcessFrame (src dest : string) (incomingPort : Z)
| CallCleanupTable
| CallClearMACTable
| CallAdvanceCycle.

Inductive Output :=
| OutFrame (lines : LearnLine * ForwardLine)
| OutCleanup (removed : Z)
| OutNone.

(** One call, made while the steady clock reads [now]. *)
Definition step (c : Call) (now : time_point) (s : Switch) : Switch * Output :=
  match c with
  | CallProcessFrameF frame p =>
      let r := processFrame_Frame frame p now s in (r.1, OutFrame r.2)
  | CallProcessFrame src dest p =>
      let r := processFrame src dest p now s in (r.1, OutFrame r.2)
  | CallCleanupTable =>
      let r := cleanupTable now s in (r.1, OutCleanup r.2)
  | CallClearMACTable => (clearMACTable s, OutNone)
  | CallAdvanceCycle => (advanceCycle s, OutNone)
  end.

(** A run: the calls in order, each paired with the clock reading of the
    environment at the time it is made. *)
Fixpoint run (tr : list (Call * time_point)) (s : Switch) : Switch * list Output :=
  match tr with
  | [] => (s, [])
  | (c, now) :: tr' =>
      let r := step c now s in
      let r' := run tr' r.1 in
      (r'.1, r.2 :: r'.2)
  end.

(** The statistics of a switch. *)
Definition statistics (s : Switch) : Z * Z * Z * Z :=
  (framesProcessed s, learningEvents s, forwardingEvents s, floodingEvents s).

(** Two switch states that agree on everything but the time stamps. *)
Definition same_but_timestamps (s1 s2 : Switch) : Prop :=
  port <$> macTable s1 = port <$> macTable s2 ∧
  numPorts s1 = numPorts s2 ∧
  agingTimeout s1 = agingTimeout s2 ∧
  currentCycle s1 = currentCycle s2 ∧
  statistics s1 = statistics s2.

(** ** The vocabulary of the specification *)

(** The specification's [Action], and the action each forwarding line
    stands for: both flooding lines are [Flood] with the arrival port
    excluded, "FILTERING" is [Drop], "FORWARDING" is [Deliver]. *)
Inductive Action :=
| Deliver (p : Z)
| Flood (excludePort : Z)
| Drop.

Definition action_of (incomingPort : Z) (f : ForwardLine) : Action :=
  match f with
  | BROADCAST _ => Flood incomingPort
  | UNKNOWN_UNICAST _ => Flood incomingPort
  | FILTERING => Drop
  | FORWARDING p => Deliver p
  end.

Definition decide_action (src dest : string) (incomingPort : Z) (now : time_point)
    (s : Switch) : Action :=
  action_of incomingPort (processFrame src dest incomingPort now s).2.2.

(** The ports a flood line lists. *)
Definition flooded_ports (f : ForwardLine) : option (list Z) :=
  match f with
  | BROADCAST ports => Some ports
  | UNKNOWN_UNICAST ports => Some ports
  | _ => None
  end.


(** The specification's port range. *)
Definition valid_port (s : Switch) (p : Z) : Prop := 1 ≤ p ≤ numPorts s.

(** The specification's canonical form of a textual address: the hex digits
    "a" to "f" (codes 97 to 102) are replaced by "A" to "F". *)
Definition upper_hex (c : ascii) : ascii :=
  let n := nat_of_ascii c in
  if ((97 <=? n) && (n <=? 102))%nat then ascii_of_nat (n - 32) else c.

Definition canonical (a : string) : string :=
  string_of_list_ascii (upper_hex <$> list_ascii_of_string a).

Definition same_address (a b : string) : Prop := canonical a = canonical b.

(** ** The addresses of the scenarios of [main.cpp] *)

Definition MAC_PC_A : string := "AA:AA:AA:AA:AA:AA".
Definition MAC_PC_B : string := "BB:BB:BB:BB:BB:BB".
Definition MAC_PC_C : string := "CC:CC:CC:CC:CC:CC".
Definition MAC_LAPTOP : string := "AA:BB:CC:DD:EE:FF".
Definition MAC_SERVER : string := "11:22:33:44:55:66".

Definition seconds (n : Z) : time_point := n * ticks_per_second.

(** ** The table listing *)

(** [void Switch::printMACTable() const].  For an empty table it prints
    "(Empty - ...)" and returns, here [None].  Otherwise it prints one row
    per entry: the address, the port and the age in whole seconds at the
    clock reading [now].  The rows are kept as a finite map from the address
    column to the other two; their order on the console is the hash map's
    and is not modelled. *)
Definition printMACTable (now : time_point) (s : Switch)
    : option (gmap string (Z * Z)) :=
  if decide (size (macTable s) = 0%nat) then None
  else Some ((λ e, (port e, elapsed now e)) <$> macTable s).

(** ** Runs: calls, clocks and invariants *)

Definition is_processFrame (c : Call) : bool :=
  match c with
  | CallProcessFrameF _ _ => true
  | CallProcessFrame _ _ _ => true
  | _ => false
  end.

Definition is_advanceCycle (c : Call) : bool :=
  match c with
  | CallAdvanceCycle => true
  | _ => false
  end.

(** The arrival port of a call, when it has one, lies in [1, n]. *)
Definition call_in_range (n : Z) (c : Call) : Prop :=
  match c with
  | CallProcessFrameF _ p => 1 ≤ p ≤ n
  | CallProcessFrame _ _ p => 1 ≤ p ≤ n
  | _ => True
  end.

(** Every port in the table is a port of the switch. *)
Definition ports_in_range (s : Switch) : Prop :=
  ∀ mac e, macTable s !! mac = Some e → 1 ≤ port e ≤ numPorts s.

(** The port a forwarding line sends to, if it is "FORWARDING". *)
Definition forwarded_port (o : Output) : option Z :=
  match o with
  | OutFrame (_, FORWARDING q) => Some q
  | _ => None
  end.

(** No entry carries a time stamp later than [t]. *)
Definition timestamps_upto (t : time_point) (s : Switch) : Prop :=
  ∀ mac e, macTable s !! mac = Some e → timestamp e ≤ t.

(** The clock readings of a run never go back, starting from [t]; the steady
    clock is monotonic. *)
Fixpoint monotone_clock (t : time_point) (tr : list (Call * time_point)) : Prop :=
  match tr with
  | [] => True
  | (_, t') :: tr' => t ≤ t' ∧ monotone_clock t' tr'
  end.

(** The last clock reading of a run that starts at [t]. *)
Fixpoint final_clock (t : time_point) (tr : list (Call * time_point)) : time_point :=
  match tr with
  | [] => t
  | (_, t') :: tr' => final_clock t' tr'
  end.

(** The counters of a switch are consistent with each other and with the
    table. *)
Definition counters_consistent (s : Switch) : Prop :=
  0 ≤ learningEvents s ≤ framesProcessed s
  ∧ 0 ≤ forwardingEvents s
  ∧ 0 ≤ floodingEvents s
  ∧ forwardingEvents s + floodingEvents s ≤ framesProcessed s
  ∧ getMACTableSize s ≤ learningEvents s.

(** The range of the C++ type [int], 32 bits wide on the platforms the
    program is built for. *)
Definition INT_MIN : Z := -2147483648.
Definition INT_MAX : Z := 2147483647.

Definition is_int (z : Z) : Prop := INT_MIN ≤ z ≤ INT_MAX.

(** The five counters of a state are values of type [int]. *)
Definition counters_are_int (s : Switch) : Prop :=
  is_int (currentCycle s)
  ∧ is_int (framesProcessed s)
  ∧ is_int (learningEvents s)
  ∧ is_int (forwardingEvents s)
  ∧ is_int (floodingEvents s).

(** A run that keeps the counters within [int]: in the state it starts from,
    in every state it passes through and in the state it ends in, the
    counters are values of type [int].  A counter changes only by [++], so
    on such a run every [++] starts below [INT_MAX], none overflows, and the
    integer counters of the model are the [int] counters of the program. *)
Fixpoint run_within_int (tr : list (Call * time_point)) (s : Switch) : Prop :=
  match tr with
  | [] => counters_are_int s
  | (c, now) :: tr' => counters_are_int s ∧ run_within_int tr' (step c now s).1
  end.

(** ** main.cpp: the calls of the demonstrations *)

Definition MAC_PC_D : string := "DD:DD:DD:DD:DD:DD".

(** The [processFrame] calls of [runSimulation], on [Switch mySwitch(8, 300)]. *)
Definition runSimulation_calls : list Call :=
  [CallProcessFrame MAC_PC_A BROADCAST_MAC 1;
   CallProcessFrame MAC_PC_B MAC_PC_A 2;
   CallProcessFrame MAC_PC_A MAC_PC_C 1;
   CallProcessFrame MAC_PC_C MAC_PC_A 3;
   CallProcessFrame MAC_PC_A MAC_PC_B 1;
   CallProcessFrame MAC_PC_B MAC_PC_C 2;
   CallProcessFrame MAC_PC_C MAC_PC_A 3;
   CallProcessFrame MAC_PC_D BROADCAST_MAC 4;
   CallProcessFrame MAC_PC_A MAC_PC_D 1;
   CallProcessFrame MAC_PC_D MAC_PC_A 4;
   CallProcessFrame MAC_PC_A MAC_PC_D 1;
   CallProcessFrame MAC_PC_B BROADCAST_MAC 2].

(** The [processFrame] calls of [demonstrateMACMove], on
    [Switch mySwitch(4, 0)]. *)
Definition demonstrateMACMove_calls : list Call :=
  [CallProcessFrame MAC_LAPTOP MAC_SERVER 1;
   CallProcessFrame MAC_SERVER MAC_LAPTOP 2;
   CallProcessFrame MAC_LAPTOP MAC_SERVER 3].

(** The state-changing calls of [demonstrateAging], on
    [Switch mySwitch(4, 5)]: two frames, [sleep_for(seconds(6))], the
    cleanup, and one more frame. *)
Definition demonstrateAging_calls : list Call :=
  [CallProcessFrame MAC_PC_A MAC_PC_B 1;
   CallProcessFrame MAC_PC_B MAC_PC_A 2;
   CallCleanupTable;
   CallProcessFrame MAC_PC_A MAC_PC_B 1].

(** * Properties *)

(** ** Sanity checks: the scenarios of [main.cpp] *)

Example startup_outputs :
  (run [(CallProcessFrame MAC_PC_A BROADCAST_MAC 1, seconds 0);
        (CallProcessFrame MAC_PC_B MAC_PC_A 2, seconds 1);
        (CallProcessFrame MAC_PC_A MAC_PC_C 1, seconds 2);
        (CallProcessFrame MAC_PC_C MAC_PC_A 3, seconds 3);
        (CallProcessFrame MAC_PC_A MAC_PC_B 1, seconds 4)] (Switch_ctor 8 300)).2
  = [OutFrame (LEARNING, BROADCAST [2; 3; 4; 5; 6; 7; 8]);
     OutFrame (LEARNING, FORWARDING 1);
     OutFrame (REFRESH, UNKNOWN_UNICAST [2; 3; 4; 5; 6; 7; 8]);
     OutFrame (LEARNING, FORWARDING 1);
     OutFrame (REFRESH, FORWARDING 2)].
Proof. vm_compute. reflexivity. Qed.

Example aging_demo :
  let r := run [(CallProcessFrame MAC_PC_A MAC_PC_B 1, seconds 0);
                (CallProcessFrame MAC_PC_B MAC_PC_A 2, seconds 0);
                (CallCleanupTable, seconds 6)] (Switch_ctor 4 5) in
  r.2 = [OutFrame (LEARNING, UNKNOWN_UNICAST [2; 3; 4]);
         OutFrame (LEARNING, FORWARDING 1);
         OutCleanup 2]
  ∧ getMACTableSize r.1 = 0.
Proof. vm_compute. split; reflexivity. Qed.

Example mac_move_demo :
  let r := run [(CallProcessFrame MAC_LAPTOP MAC_SERVER 1, seconds 0);
                (CallProcessFrame MAC_SERVER MAC_LAPTOP 2, seconds 1);
                (CallProcessFrame MAC_LAPTOP MAC_SERVER 3, seconds 2)] (Switch_ctor 4 0) in
  r.2 = [OutFrame (LEARNING, UNKNOWN_UNICAST [2; 3; 4]);
         OutFrame (LEARNING, FORWARDING 1);
         OutFrame (UPDATE 1, FORWARDING 2)]
  ∧ statistics r.1 = (3, 2, 2, 1)
  ∧ lookup_port MAC_LAPTOP r.1 = Some 3.
Proof. vm_compute. repeat split; reflexivity. Qed.

(** ** The clock *)

Lemma ticks_per_second_pos : 0 < ticks_per_second.
Proof. reflexivity. Qed.

Lemma duration_cast_seconds_exact (n : Z) :
  duration_cast_seconds (seconds n) = n.
Proof.
  unfold duration_cast_seconds, seconds.
  apply Z.quot_mul. pose proof ticks_per_second_pos. lia.
Qed.

(** For a non-negative bound [T], the whole seconds of [d] exceed [T] exactly
    when [d] has reached [T + 1] full seconds. *)
Lemma duration_cast_seconds_gt (d T : Z) :
  0 ≤ T →
  duration_cast_seconds d > T ↔ seconds (T + 1) ≤ d.
Proof.
  intros HT. unfold duration_cast_seconds, seconds.
  pose proof ticks_per_second_pos as Hp.
  destruct (Z_lt_le_dec d 0) as [Hneg | Hnn].
  - split; [| nia].
    intros Hq. exfalso.
    pose proof (Z.quot_opp_l d ticks_per_second ltac:(lia)) as Ho.
    pose proof (Z.quot_pos (- d) ticks_per_second ltac:(lia) Hp). lia.
  - rewrite Z.quot_div_nonneg by lia.
    split; intros H.
    + assert (T + 1 ≤ d `div` ticks_per_second) as H1 by lia.
      pose proof (Z.mul_div_le d ticks_per_second Hp). nia.
    + assert (T + 1 ≤ d `div` ticks_per_second); [| lia].
      apply Z.div_le_lower_bound; lia.
Qed.

(** ** The flood list *)

Lemma StronglySorted_filter_lt (P : Z → Prop) `{!∀ x, Decision (P x)} (l : list Z) :
  StronglySorted Z.lt l → StronglySorted Z.lt (filter P l).
Proof.
  induction 1 as [| x l Hl IH Hx]; [constructor |].
  rewrite filter_cons. destruct (decide (P x)); [| exact IH].
  constructor; [exact IH |].
  rewrite List.Forall_forall in Hx |- *.
  intros y Hy. apply Hx. rewrite <- list_elem_of_In in Hy |- *.
  apply list_elem_of_filter in Hy. tauto.
Qed.

Lemma StronglySorted_seqZ (n : nat) (m : Z) :
  StronglySorted Z.lt (seqZ m (Z.of_nat n)).
Proof.
  revert m. induction n as [| n IH]; intros m.
  - rewrite seqZ_nil by lia. constructor.
  - rewrite seqZ_cons by lia.
    replace (Z.pred (Z.of_nat (S n))) with (Z.of_nat n) by lia.
    constructor; [apply IH |].
    rewrite List.Forall_forall. intros y Hy.
    rewrite <- list_elem_of_In, elem_of_seqZ in Hy. lia.
Qed.

Lemma flooding_ports_elem (nPorts incomingPort i : Z) :
  i ∈ flooding_ports nPorts incomingPort ↔ 1 ≤ i ≤ nPorts ∧ i ≠ incomingPort.
Proof.
  unfold flooding_ports. rewrite list_elem_of_filter, elem_of_seqZ. lia.
Qed.

Lemma flooding_ports_sorted (nPorts incomingPort : Z) :
  StronglySorted Z.lt (flooding_ports nPorts incomingPort).
Proof.
  unfold flooding_ports. apply StronglySorted_filter_lt.
  destruct (Z_lt_le_dec nPorts 0) as [Hneg | Hnn].
  - rewrite seqZ_nil by lia. constructor.
  - rewrite <- (Z2Nat.id nPorts) by lia. apply StronglySorted_seqZ.
Qed.

(** ** The learning phase *)

Lemma learning_phase_macTable src p now s :
  macTable (learning_phase src p now s).1 = <[src := mkEntry p now]> (macTable s).
Proof.
  unfold learning_phase.
  destruct (macTable s !! src) as [e |]; [| reflexivity].
  destruct (decide (port e ≠ p)) as [Hne | Heq]; [reflexivity |].
  simpl. apply dec_stable in Heq. by rewrite Heq.
Qed.

Lemma learning_phase_line src p now s :
  (learning_phase src p now s).2 =
    match macTable s !! src with
    | None => LEARNING
    | Some e => if decide (port e ≠ p) then UPDATE (port e) else REFRESH
    end.
Proof.
  unfold learning_phase.
  destruct (macTable s !! src) as [e |]; [| reflexivity].
  by destruct (decide (port e ≠ p)).
Qed.

Lemma learning_phase_learningEvents src p now s :
  learningEvents (learning_phase src p now s).1 =
    learningEvents s + (match macTable s !! src with Some _ => 0 | None => 1 end).
Proof.
  unfold learning_phase.
  destruct (macTable s !! src) as [e |]; [| reflexivity].
  destruct (decide (port e ≠ p)); simpl; lia.
Qed.

Lemma learning_phase_frame src p now s :
  let s' := (learning_phase src p now s).1 in
  numPorts s' = numPorts s ∧ agingTimeout s' = agingTimeout s ∧
  currentCycle s' = currentCycle s ∧ framesProcessed s' = framesProcessed s ∧
  forwardingEvents s' = forwardingEvents s ∧ floodingEvents s' = floodingEvents s.
Proof.
  unfold learning_phase.
  destruct (macTable s !! src) as [e |]; [| by repeat split].
  by destruct (decide (port e ≠ p)); repeat split.
Qed.

(** ** The forwarding decision *)

Lemma forwarding_decision_frame dest p s :
  let s' := (forwarding_decision dest p s).1 in
  macTable s' = macTable s ∧ numPorts s' = numPorts s ∧
  agingTimeout s' = agingTimeout s ∧ currentCycle s' = currentCycle s ∧
  framesProcessed s' = framesProcessed s ∧ learningEvents s' = learningEvents s.
Proof.
  unfold forwarding_decision.
  destruct (decide (dest = BROADCAST_MAC)); [by repeat split |].
  destruct (macTable s !! dest) as [e |]; [| by repeat split].
  by destruct (decide (port e = p)); repeat split.
Qed.

Lemma forwarding_decision_flood_iff dest p s :
  action_of p (forwarding_decision dest p s).2 = Flood p ↔
  dest = BROADCAST_MAC ∨ macTable s !! dest = None.
Proof.
  unfold forwarding_decision.
  destruct (decide (dest = BROADCAST_MAC)) as [Hb | Hb]; [simpl; tauto |].
  destruct (macTable s !! dest) as [e |] eqn:He; [| simpl; tauto].
  destruct (decide (port e = p)); simpl; split; intros H;
    try discriminate; destruct H; congruence.
Qed.

(** ** [processFrame] as the sequence of its steps *)

Lemma processFrame_unfold src dest p now s :
  processFrame src dest p now s =
    ((forwarding_decision dest p (after_learning src p now s)).1,
     ((learning_phase src p now (incr_framesProcessed s)).2,
      (forwarding_decision dest p (after_learning src p now s)).2)).
Proof.
  unfold processFrame, after_learning.
  destruct (learning_phase src p now (incr_framesProcessed s)) as [s1 l].
  simpl. by destruct (forwarding_decision dest p s1).
Qed.

Lemma after_learning_macTable src p now s :
  macTable (after_learning src p now s) = <[src := mkEntry p now]> (macTable s).
Proof. unfold after_learning. by rewrite learning_phase_macTable. Qed.

Lemma processFrame_macTable src dest p now s :
  macTable (processFrame src dest p now s).1 = <[src := mkEntry p now]> (macTable s).
Proof.
  rewrite processFrame_unfold. simpl.
  destruct (forwarding_decision_frame dest p (after_learning src p now s)) as [-> _].
  apply after_learning_macTable.
Qed.

Lemma processFrame_config src dest p now s :
  let s' := (processFrame src dest p now s).1 in
  numPorts s' = numPorts s ∧ agingTimeout s' = agingTimeout s ∧
  currentCycle s' = currentCycle s.
Proof.
  rewrite processFrame_unfold. simpl.
  destruct (forwarding_decision_frame dest p (after_learning src p now s))
    as (_ & -> & -> & -> & _).
  unfold after_learning.
  destruct (learning_phase_frame src p now (incr_framesProcessed s))
    as (-> & -> & -> & _).
  done.
Qed.

Lemma processFrame_lookup_src src dest p now s :
  lookup_port src (processFrame src dest p now s).1 = Some p.
Proof.
  unfold lookup_port. rewrite processFrame_macTable.
  by rewrite lookup_insert_eq.
Qed.

Lemma processFrame_lookup_ne src dest p now s k :
  k ≠ src → macTable (processFrame src dest p now s).1 !! k = macTable s !! k.
Proof.
  intros Hk. rewrite processFrame_macTable. by apply lookup_insert_ne.
Qed.

(** The table the destination is looked up in, in terms of the table the
    call started from: the source address is in it, at the arrival port. *)
Lemma after_learning_lookup_None src dest p now s :
  macTable (after_learning src p now s) !! dest = None ↔
  dest ≠ src ∧ macTable s !! dest = None.
Proof.
  rewrite after_learning_macTable.
  destruct (decide (dest = src)) as [-> | Hne].
  - rewrite lookup_insert_eq. split; [discriminate | tauto].
  - rewrite lookup_insert_ne by done. tauto.
Qed.

Lemma decide_action_flood_iff src dest p now s :
  decide_action src dest p now s = Flood p ↔
  dest = BROADCAST_MAC ∨ (dest ≠ src ∧ macTable s !! dest = None).
Proof.
  unfold decide_action. rewrite processFrame_unfold. simpl.
  rewrite forwarding_decision_flood_iff, after_learning_lookup_None. tauto.
Qed.

Lemma processFrame_framesProcessed src dest p now s :
  framesProcessed (processFrame src dest p now s).1 = framesProcessed s + 1.
Proof.
  rewrite processFrame_unfold. simpl.
  destruct (forwarding_decision_frame dest p (after_learning src p now s))
    as (_ & _ & _ & _ & -> & _).
  unfold after_learning.
  destruct (learning_phase_frame src p now (incr_framesProcessed s))
    as (_ & _ & _ & -> & _).
  reflexivity.
Qed.

Lemma processFrame_learningEvents src dest p now s :
  learningEvents (processFrame src dest p now s).1 =
    learningEvents s + (match macTable s !! src with Some _ => 0 | None => 1 end).
Proof.
  rewrite processFrame_unfold. simpl.
  destruct (forwarding_decision_frame dest p (after_learning src p now s))
    as (_ & _ & _ & _ & _ & ->).
  unfold after_learning. by rewrite learning_phase_learningEvents.
Qed.

Lemma processFrame_learn_line src dest p now s :
  (processFrame src dest p now s).2.1 =
    match macTable s !! src with
    | None => LEARNING
    | Some e => if decide (port e ≠ p) then UPDATE (port e) else REFRESH
    end.
Proof. rewrite processFrame_unfold. simpl. by rewrite learning_phase_line. Qed.

(** ** [cleanupTable] *)

(** The loop of [cleanupTable], run over the entries of [m] with the table
    [m0] in hand: an address is looked up in the result as in [m0], unless
    the loop met it with an age above the timeout. *)
Lemma cleanup_loop_lookup now T (m0 m : gmap string MACTableEntry) (n0 : Z) mac :
  (map_fold (cleanup_entry now T) (m0, n0) m).1 !! mac =
    match m !! mac with
    | Some e => if decide (elapsed now e > T) then None else m0 !! mac
    | None => m0 !! mac
    end.
Proof.
  revert mac.
  apply (map_fold_weak_ind
    (λ r m, ∀ mac, r.1 !! mac =
       match m !! mac with
       | Some e => if decide (elapsed now e > T) then None else m0 !! mac
       | None => m0 !! mac
       end)).
  - intros mac. by rewrite lookup_empty.
  - intros i x m' r Hi IH mac. unfold cleanup_entry.
    destruct (decide (mac = i)) as [-> | Hne].
    + rewrite lookup_insert_eq.
      destruct (decide (elapsed now x > T)); simpl.
      * apply lookup_delete_eq.
      * rewrite IH, Hi. done.
    + rewrite lookup_insert_ne by done.
      destruct (decide (elapsed now x > T)); simpl.
      * rewrite lookup_delete_ne by done. apply IH.
      * apply IH.
Qed.

(** [removed] counts the entries whose age is above the timeout. *)
Lemma cleanup_loop_removed now T (m0 m : gmap string MACTableEntry) (n0 : Z) :
  (map_fold (cleanup_entry now T) (m0, n0) m).2 =
    n0 + Z.of_nat (size (filter (λ kv, elapsed now kv.2 > T) m)).
Proof.
  apply (map_fold_weak_ind
    (λ r m, r.2 = n0 + Z.of_nat (size (filter (λ kv, elapsed now kv.2 > T) m)))).
  - rewrite map_filter_empty, map_size_empty. simpl. lia.
  - intros i x m' r Hi IH. unfold cleanup_entry.
    destruct (decide (elapsed now x > T)) as [Hold | Hyoung]; simpl.
    + rewrite map_filter_insert_True by done.
      rewrite map_size_insert_None by (by apply map_lookup_filter_None_2; left).
      lia.
    + rewrite map_filter_insert_False by done.
      rewrite delete_id by done. exact IH.
Qed.

Lemma cleanupTable_lookup now s mac :
  0 < agingTimeout s →
  macTable (cleanupTable now s).1 !! mac =
    match macTable s !! mac with
    | Some e => if decide (elapsed now e > agingTimeout s) then None else Some e
    | None => None
    end.
Proof.
  intros Hpos. unfold cleanupTable.
  destruct (decide (agingTimeout s ≤ 0)); [lia |].
  simpl. rewrite cleanup_loop_lookup.
  destruct (macTable s !! mac) as [e |] eqn:He; [| done].
  by destruct (decide (elapsed now e > agingTimeout s)).
Qed.

Lemma cleanupTable_disabled now s :
  agingTimeout s ≤ 0 → cleanupTable now s = (s, 0).
Proof.
  intros H. unfold cleanupTable. by destruct (decide (agingTimeout s ≤ 0)).
Qed.

Lemma cleanupTable_frame now s :
  let s' := (cleanupTable now s).1 in
  numPorts s' = numPorts s ∧ agingTimeout s' = agingTimeout s ∧
  currentCycle s' = currentCycle s ∧ statistics s' = statistics s.
Proof.
  unfold cleanupTable.
  by destruct (decide (agingTimeout s ≤ 0)); repeat split.
Qed.

(** ** The lines and counters of one call *)

Lemma processFrame_decision_counters src dest p now s :
  let r := processFrame src dest p now s in
  match r.2.2 with
  | BROADCAST _ | UNKNOWN_UNICAST _ =>
      floodingEvents r.1 = floodingEvents s + 1
      ∧ forwardingEvents r.1 = forwardingEvents s
  | FORWARDING _ =>
      floodingEvents r.1 = floodingEvents s
      ∧ forwardingEvents r.1 = forwardingEvents s + 1
  | FILTERING =>
      floodingEvents r.1 = floodingEvents s
      ∧ forwardingEvents r.1 = forwardingEvents s
  end.
Proof.
  intros r. subst r. rewrite processFrame_unfold. simpl.
  destruct (learning_phase_frame src p now (incr_framesProcessed s))
    as (_ & _ & _ & _ & Hfw & Hfl).
  fold (after_learning src p now s) in Hfw, Hfl. simpl in Hfw, Hfl.
  unfold forwarding_decision.
  destruct (decide (dest = BROADCAST_MAC)); [simpl; lia |].
  destruct (macTable (after_learning src p now s) !! dest) as [e |];
    [| simpl; lia].
  destruct (decide (port e = p)); simpl; lia.
Qed.

Lemma processFrame_empty_table src dest p now s :
  macTable s = ∅ →
  let r := processFrame src dest p now s in
  r.2.1 = LEARNING
  ∧ macTable r.1 = {[src := mkEntry p now]}
  ∧ r.2.2 = (if decide (dest = BROADCAST_MAC)
             then BROADCAST (flooding_ports (numPorts s) p)
             else if decide (dest = src) then FILTERING
                  else UNKNOWN_UNICAST (flooding_ports (numPorts s) p)).
Proof.
  intros Hempty r. subst r.
  split; [| split].
  - rewrite processFrame_learn_line, Hempty. by rewrite lookup_empty.
  - rewrite processFrame_macTable, Hempty. apply insert_empty.
  - assert (Hn : numPorts (after_learning src p now s) = numPorts s).
    { unfold after_learning.
      by destruct (learning_phase_frame src p now (incr_framesProcessed s)) as [-> _]. }
    rewrite processFrame_unfold. simpl. unfold forwarding_decision.
    rewrite Hn, after_learning_macTable, Hempty.
    destruct (decide (dest = BROADCAST_MAC)); [done |].
    destruct (decide (dest = src)) as [-> | Hne].
    + rewrite lookup_insert_eq. simpl. by rewrite decide_True.
    + rewrite lookup_insert_ne by done. by rewrite lookup_empty.
Qed.

(** * The claims *)

(** C1.  The forwarding decision floods, excluding the arrival port, exactly
    when the destination is the broadcast address or is absent from the
    address table it consults.  The broadcast test comes first: a broadcast
    destination gives the broadcast flood whatever the table holds, also an
    entry for the broadcast address itself.  The ports listed for a flood are
    those of [1, numPorts] other than the arrival port, in ascending order.
    The statement is given for the decision step in an arbitrary state, and
    for [processFrame], whose decision runs in the state left by its learning
    phase; there the destination is absent exactly when it is not the frame's
    own source and was absent when the call started. *)
Theorem C1_flood_iff_broadcast_or_unknown (src dest : string) (p : Z)
    (now : time_point) (s : Switch) :
  (action_of p (forwarding_decision dest p s).2 = Flood p ↔
     dest = BROADCAST_MAC ∨ macTable s !! dest = None)
  ∧ (decide_action src dest p now s = Flood p ↔
     dest = BROADCAST_MAC ∨ macTable (after_learning src p now s) !! dest = None)
  ∧ (decide_action src dest p now s = Flood p ↔
     dest = BROADCAST_MAC ∨ (dest ≠ src ∧ macTable s !! dest = None))
  ∧ (dest = BROADCAST_MAC →
     (processFrame src dest p now s).2.2 = BROADCAST (flooding_ports (numPorts s) p))
  ∧ (∀ ports, flooded_ports (processFrame src dest p now s).2.2 = Some ports →
     (∀ i, i ∈ ports ↔ 1 ≤ i ≤ numPorts s ∧ i ≠ p) ∧ StronglySorted Z.lt ports).
Proof.
  assert (Hn : numPorts (after_learning src p now s) = numPorts s).
  { unfold after_learning.
    destruct (learning_phase_frame src p now (incr_framesProcessed s)) as [-> _].
    reflexivity. }
  split; [apply forwarding_decision_flood_iff |].
  split.
  { rewrite decide_action_flood_iff, after_learning_lookup_None. tauto. }
  split; [apply decide_action_flood_iff |].
  rewrite processFrame_unfold. simpl.
  split.
  - intros Hb. unfold forwarding_decision.
    rewrite decide_True by done. simpl. by rewrite Hn.
  - intros ports. unfold forwarding_decision.
    destruct (decide (dest = BROADCAST_MAC)).
    + simpl. intros [= <-]. rewrite Hn.
      split; [intros i; apply flooding_ports_elem | apply flooding_ports_sorted].
    + destruct (macTable (after_learning src p now s) !! dest) as [e |].
      * destruct (decide (port e = p)); simpl; discriminate.
      * simpl. intros [= <-]. rewrite Hn.
        split; [intros i; apply flooding_ports_elem | apply flooding_ports_sorted].
Qed.

Lemma C1_witness :
  (processFrame MAC_PC_A BROADCAST_MAC 1 0 (Switch_ctor 8 300)).2.2
    = BROADCAST (flooding_ports 8 1)
  ∧ ((∀ i, i ∈ [2; 3; 4; 5; 6; 7; 8] ↔ 1 ≤ i ≤ 8 ∧ i ≠ 1)
     ∧ StronglySorted Z.lt [2; 3; 4; 5; 6; 7; 8]).
Proof.
  pose proof (C1_flood_iff_broadcast_or_unknown
                MAC_PC_A BROADCAST_MAC 1 0 (Switch_ctor 8 300))
    as (_ & _ & _ & Hb & Hp).
  split.
  - apply Hb. reflexivity.
  - apply Hp. vm_compute. reflexivity.
Defined.

(** C2.  A frame whose destination is not the broadcast address and is in
    the address table at port [q] once the learning step of the call is
    done: when [q] is the arrival port the frame is dropped and
    [forwardingEvents] keeps its value; otherwise it is delivered to [q] and
    [forwardingEvents] grows by one. *)
Theorem C2_known_unicast (src dest : string) (p q : Z) (now : time_point)
    (s : Switch) :
  dest ≠ BROADCAST_MAC →
  lookup_port dest (after_learning src p now s) = Some q →
  let r := processFrame src dest p now s in
  (q = p → action_of p r.2.2 = Drop ∧ r.2.2 = FILTERING
           ∧ forwardingEvents r.1 = forwardingEvents s)
  ∧ (q ≠ p → action_of p r.2.2 = Deliver q ∧ r.2.2 = FORWARDING q
           ∧ forwardingEvents r.1 = forwardingEvents s + 1).
Proof.
  intros Hb Hq r. subst r. rewrite processFrame_unfold. simpl.
  assert (Hf : forwardingEvents (after_learning src p now s) = forwardingEvents s).
  { unfold after_learning.
    destruct (learning_phase_frame src p now (incr_framesProcessed s))
      as (_ & _ & _ & _ & -> & _).
    reflexivity. }
  unfold lookup_port in Hq. unfold forwarding_decision.
  rewrite decide_False by done.
  destruct (macTable (after_learning src p now s) !! dest) as [e |];
    [| discriminate].
  simpl in Hq. injection Hq as Hq. simpl.
  destruct (decide (port e = p)) as [Heq | Hne]; simpl.
  - split; [by rewrite Hf | intros; congruence].
  - split; [intros; congruence |]. intros _. rewrite <- Hq, Hf. done.
Qed.

Lemma C2_witness :
  let s := (processFrame MAC_PC_A BROADCAST_MAC 1 0 (Switch_ctor 8 300)).1 in
  let r := processFrame MAC_PC_B MAC_PC_A 2 0 s in
  (1 = 2 → action_of 2 r.2.2 = Drop ∧ r.2.2 = FILTERING
           ∧ forwardingEvents r.1 = forwardingEvents s)
  ∧ (1 ≠ 2 → action_of 2 r.2.2 = Deliver 1 ∧ r.2.2 = FORWARDING 1
           ∧ forwardingEvents r.1 = forwardingEvents s + 1).
Proof.
  apply (C2_known_unicast MAC_PC_B MAC_PC_A 2 1 0
           (processFrame MAC_PC_A BROADCAST_MAC 1 0 (Switch_ctor 8 300)).1).
  - vm_compute. discriminate.
  - vm_compute. reflexivity.
Defined.

(** C3.  Learning comes before the forwarding decision.  From an empty
    table, [processFrame] of source "AA", destination "CC" on port 1 prints
    the "LEARNING" line and the unknown-unicast flood line whose port list
    is exactly the ports 2 to [numPorts] in ascending order, port 1 being
    excluded; it counts one flood and no forward, and "AA" is then the one
    entry of the table, at port 1.  After any [processFrame] the table maps
    the frame's source address to the arrival port, and the decision of the
    call is the one taken in the state the learning phase left: a frame
    addressed to its own source is therefore filtered, whatever the table
    held before. *)
Theorem C3_learn_before_decide (src dest : string) (p : Z) (now : time_point)
    (s : Switch) (frame : Frame) :
  (macTable s = ∅ →
     decide_action "AA" "CC" 1 now s = Flood 1
     ∧ (processFrame "AA" "CC" 1 now s).2
         = (LEARNING, UNKNOWN_UNICAST (flooding_ports (numPorts s) 1))
     ∧ (∀ i, i ∈ flooding_ports (numPorts s) 1 ↔ 2 ≤ i ≤ numPorts s)
     ∧ StronglySorted Z.lt (flooding_ports (numPorts s) 1)
     ∧ floodingEvents (processFrame "AA" "CC" 1 now s).1 = floodingEvents s + 1
     ∧ forwardingEvents (processFrame "AA" "CC" 1 now s).1 = forwardingEvents s
     ∧ lookup_port "AA" (processFrame "AA" "CC" 1 now s).1 = Some 1
     ∧ macTable (processFrame "AA" "CC" 1 now s).1 = {["AA" := mkEntry 1 now]})
  ∧ lookup_port src (processFrame src dest p now s).1 = Some p
  ∧ lookup_port (sourceMAC frame) (processFrame_Frame frame p now s).1 = Some p
  ∧ lookup_port src (after_learning src p now s) = Some p
  ∧ (processFrame src dest p now s).2.2
      = (forwarding_decision dest p (after_learning src p now s)).2
  ∧ (src ≠ BROADCAST_MAC → (processFrame src src p now s).2.2 = FILTERING).
Proof.
  split; [| split; [| split; [apply processFrame_lookup_src | split; [| split]]]].
  - intros Hempty.
    destruct (processFrame_empty_table "AA" "CC" 1 now s Hempty) as (Hl & Hm & Hf).
    rewrite decide_False in Hf by (vm_compute; discriminate).
    rewrite decide_False in Hf by (vm_compute; discriminate).
    pose proof (processFrame_decision_counters "AA" "CC" 1 now s) as Hc.
    simpl in Hc. rewrite Hf in Hc. destruct Hc as [Hfl Hfw].
    split.
    { apply decide_action_flood_iff. right. split; [discriminate |].
      rewrite Hempty. apply lookup_empty. }
    split.
    { destruct (processFrame "AA" "CC" 1 now s).2 as [l f]. simpl in Hl, Hf.
      by rewrite Hl, Hf. }
    split; [intros i; rewrite flooding_ports_elem; lia |].
    split; [apply flooding_ports_sorted |].
    split; [exact Hfl |]. split; [exact Hfw |].
    split; [apply processFrame_lookup_src | exact Hm].
  - apply processFrame_lookup_src.
  - unfold lookup_port. rewrite after_learning_macTable.
    by rewrite lookup_insert_eq.
  - by rewrite processFrame_unfold.
  - intros Hb. rewrite processFrame_unfold. simpl. unfold forwarding_decision.
    rewrite decide_False by done.
    rewrite after_learning_macTable, lookup_insert_eq. simpl.
    by rewrite decide_True.
Qed.

Lemma C3_witness :
  decide_action "AA" "CC" 1 0 (Switch_ctor 8 300) = Flood 1
  ∧ (processFrame "AA" "CC" 1 0 (Switch_ctor 8 300)).2
      = (LEARNING, UNKNOWN_UNICAST [2; 3; 4; 5; 6; 7; 8])
  ∧ lookup_port "AA" (processFrame "AA" "CC" 1 0 (Switch_ctor 8 300)).1 = Some 1
  ∧ (processFrame "AA" "AA" 1 0 (Switch_ctor 8 300)).2.2 = FILTERING.
Proof.
  pose proof (C3_learn_before_decide "AA" "CC" 1 0 (Switch_ctor 8 300)
                (Frame_ctor2 "AA" "CC")) as (H & _ & _ & _ & _ & Hself).
  destruct H as (Ha & Hline & _ & _ & _ & _ & Hp & _); [reflexivity |].
  split; [exact Ha |]. split; [exact Hline |]. split; [exact Hp |].
  apply Hself. vm_compute. discriminate.
Defined.

(** C4, as the code has it.  [cleanupTable] compares the age of an entry in
    whole seconds, the clock difference truncated by [duration_cast], with
    the timeout.  With aging enabled it removes exactly the entries whose
    whole-second age is strictly greater than the timeout, that is, the
    entries last seen at least [timeout + 1] full seconds ago; every other
    entry, the one aged exactly [timeout] seconds included, is left as it
    was, no entry appears, and [removed] is the number of entries taken out.
    With a timeout of zero or less the call changes nothing.  Ports,
    configuration and statistics are never touched. *)
Theorem C4_cleanupTable_whole_seconds (now : time_point) (s : Switch)
    (mac : string) :
  let s' := (cleanupTable now s).1 in
  (agingTimeout s ≤ 0 → cleanupTable now s = (s, 0))
  ∧ (0 < agingTimeout s →
     (∀ e, macTable s !! mac = Some e →
        (elapsed now e > agingTimeout s ↔
           seconds (agingTimeout s + 1) ≤ now - timestamp e)
        ∧ (elapsed now e > agingTimeout s → macTable s' !! mac = None)
        ∧ (elapsed now e ≤ agingTimeout s → macTable s' !! mac = Some e)
        ∧ (now - timestamp e = seconds (agingTimeout s) →
             macTable s' !! mac = Some e))
     ∧ (macTable s !! mac = None → macTable s' !! mac = None)
     ∧ (cleanupTable now s).2 =
         Z.of_nat (size (filter (λ kv, elapsed now kv.2 > agingTimeout s)
                                (macTable s))))
  ∧ numPorts s' = numPorts s ∧ agingTimeout s' = agingTimeout s
  ∧ currentCycle s' = currentCycle s ∧ statistics s' = statistics s.
Proof.
  intros s'. subst s'.
  split; [apply cleanupTable_disabled |].
  split; [| apply cleanupTable_frame].
  intros Hpos. split; [| split].
  - intros e He. rewrite cleanupTable_lookup, He by done.
    split; [apply duration_cast_seconds_gt; lia |].
    split; [| split].
    + intros Hold. by rewrite decide_True.
    + intros Hyoung. rewrite decide_False; [done | lia].
    + intros Heq. rewrite decide_False; [done |].
      unfold elapsed. rewrite Heq, duration_cast_seconds_exact. lia.
  - intros Hnone. by rewrite cleanupTable_lookup, Hnone.
  - unfold cleanupTable. destruct (decide (agingTimeout s ≤ 0)); [lia |].
    simpl. rewrite cleanup_loop_removed. lia.
Qed.

Lemma C4_witness :
  let s := (processFrame MAC_PC_A MAC_PC_B 1 (seconds 0) (Switch_ctor 4 5)).1 in
  macTable (cleanupTable (seconds 6) s).1 !! MAC_PC_A = None
  ∧ macTable (cleanupTable (seconds 5) s).1 !! MAC_PC_A = Some (mkEntry 1 0)
  ∧ cleanupTable (seconds 6) (Switch_ctor 4 0) = (Switch_ctor 4 0, 0).
Proof.
  intros s.
  pose proof (C4_cleanupTable_whole_seconds (seconds 6) s MAC_PC_A)
    as (_ & H6 & _).
  pose proof (C4_cleanupTable_whole_seconds (seconds 5) s MAC_PC_A)
    as (_ & H5 & _).
  pose proof (C4_cleanupTable_whole_seconds (seconds 6) (Switch_ctor 4 0) MAC_PC_A)
    as (H0 & _).
  split; [| split].
  - destruct H6 as [H _]; [vm_compute; reflexivity |].
    destruct (H (mkEntry 1 0)) as (_ & Hold & _); [vm_compute; reflexivity |].
    apply Hold. vm_compute. reflexivity.
  - destruct H5 as [H _]; [vm_compute; reflexivity |].
    destruct (H (mkEntry 1 0)) as (_ & _ & _ & Heq); [vm_compute; reflexivity |].
    apply Heq. vm_compute. reflexivity.
  - apply H0. vm_compute. discriminate.
Defined.

(** C4 as stated fails: with a timeout of 5 seconds, an entry last seen
    5.5 seconds ago has [now - lastSeen] greater than the timeout, and
    survives the cleanup. *)
Lemma C4_counterexample :
  let s := (processFrame MAC_PC_A MAC_PC_B 1 0 (Switch_ctor 4 5)).1 in
  let now := 5500000000 in
  ∃ e, macTable s !! MAC_PC_A = Some e
       ∧ seconds (agingTimeout s) < now - timestamp e
       ∧ macTable (cleanupTable now s).1 !! MAC_PC_A = Some e.
Proof.
  exists (mkEntry 1 0). vm_compute. repeat split; reflexivity.
Qed.

(** C5, as the code has it.  [processFrame] makes no check of the arrival
    port: a call with a port outside [1, numPorts] runs to completion like
    any other.  The frame is counted, the source address is recorded in the
    table at that port, and the forwarding decision is taken in the state
    so obtained. *)
Theorem C5_no_port_check (src dest : string) (p : Z) (now : time_point)
    (s : Switch) :
  ¬ valid_port s p →
  let r := processFrame src dest p now s in
  framesProcessed r.1 = framesProcessed s + 1
  ∧ macTable r.1 = <[src := mkEntry p now]> (macTable s)
  ∧ lookup_port src r.1 = Some p
  ∧ r.2.2 = (forwarding_decision dest p (after_learning src p now s)).2.
Proof.
  intros _ r. subst r.
  split; [apply processFrame_framesProcessed |].
  split; [apply processFrame_macTable |].
  split; [apply processFrame_lookup_src |].
  by rewrite processFrame_unfold.
Qed.

Lemma C5_witness :
  let r := processFrame MAC_PC_A MAC_PC_B 9 0 (Switch_ctor 4 300) in
  framesProcessed r.1 = 0 + 1
  ∧ macTable r.1 = <[MAC_PC_A := mkEntry 9 0]> ∅
  ∧ lookup_port MAC_PC_A r.1 = Some 9
  ∧ r.2.2 = (forwarding_decision MAC_PC_B 9
               (after_learning MAC_PC_A 9 0 (Switch_ctor 4 300))).2.
Proof.
  apply (C5_no_port_check MAC_PC_A MAC_PC_B 9 0 (Switch_ctor 4 300)).
  unfold valid_port. simpl. lia.
Defined.

(** C5 as stated fails: on a switch of 4 ports, a frame arriving on port 9
    is processed; it is flooded and its source is entered in the table. *)
Lemma C5_counterexample :
  let s := Switch_ctor 4 300 in
  let r := processFrame MAC_PC_A MAC_PC_B 9 0 s in
  ¬ valid_port s 9
  ∧ r.2 = (LEARNING, UNKNOWN_UNICAST [1; 2; 3; 4])
  ∧ lookup_port MAC_PC_A r.1 = Some 9
  ∧ macTable r.1 ≠ macTable s.
Proof.
  intros s r. split; [| split; [| split]].
  - unfold valid_port. simpl. lia.
  - vm_compute. reflexivity.
  - vm_compute. reflexivity.
  - intros H. apply (f_equal (λ m, m !! MAC_PC_A)) in H.
    vm_compute in H. discriminate.
Qed.




(** C7.  [processFrame] never destroys a table entry.  It rewrites the entry
    of the frame's source address, every other address is looked up after
    the call as before it, every address known before is known after, and
    the configuration is kept; only the statistics change besides.  Over the
    whole interface, an entry that a call makes disappear was removed by
    [cleanupTable] or by [clearMACTable]. *)
Theorem C7_entries_survive_processFrame (src dest : string) (p : Z)
    (now : time_point) (s : Switch) (k : string) (c : Call) :
  let s' := (processFrame src dest p now s).1 in
  (k ≠ src → macTable s' !! k = macTable s !! k)
  ∧ macTable s' !! src = Some (mkEntry p now)
  ∧ (is_Some (macTable s !! k) → is_Some (macTable s' !! k))
  ∧ dom (macTable s) ⊆ dom (macTable s')
  ∧ numPorts s' = numPorts s ∧ agingTimeout s' = agingTimeout s
  ∧ currentCycle s' = currentCycle s
  ∧ (is_Some (macTable s !! k) → macTable (step c now s).1 !! k = None →
     c = CallCleanupTable ∨ c = CallClearMACTable).
Proof.
  intros s'. subst s'.
  assert (Hkeep : ∀ a b q t, is_Some (macTable s !! k) →
            is_Some (macTable (processFrame a b q t s).1 !! k)).
  { intros a b q t Hk. rewrite processFrame_macTable.
    destruct (decide (k = a)) as [-> | Hne].
    - rewrite lookup_insert_eq. eauto.
    - by rewrite lookup_insert_ne. }
  split; [apply processFrame_lookup_ne |].
  split; [rewrite processFrame_macTable; apply lookup_insert_eq |].
  split; [apply Hkeep |].
  split.
  { rewrite processFrame_macTable. set_solver. }
  split; [apply processFrame_config |].
  split; [apply processFrame_config |].
  split; [apply processFrame_config |].
  intros Hk Hgone.
  destruct c as [frame q | a b q | | |]; simpl in Hgone; auto.
  - unfold processFrame_Frame in Hgone.
    apply (Hkeep (sourceMAC frame) (destMAC frame) q now) in Hk.
    rewrite Hgone in Hk. by destruct Hk.
  - apply (Hkeep a b q now) in Hk. rewrite Hgone in Hk. by destruct Hk.
  - rewrite Hgone in Hk. by destruct Hk.
Qed.

Lemma C7_witness :
  let s := (processFrame MAC_PC_A BROADCAST_MAC 1 0 (Switch_ctor 8 300)).1 in
  macTable (processFrame MAC_PC_B MAC_PC_A 2 1 s).1 !! MAC_PC_A = macTable s !! MAC_PC_A
  ∧ is_Some (macTable (processFrame MAC_PC_B MAC_PC_A 2 1 s).1 !! MAC_PC_A).
Proof.
  intros s.
  pose proof (C7_entries_survive_processFrame
                MAC_PC_B MAC_PC_A 2 1 s MAC_PC_A CallAdvanceCycle)
    as (Hne & _ & Hsome & _).
  split.
  - apply Hne. vm_compute. discriminate.
  - apply Hsome. vm_compute. eauto.
Defined.

(** ** How far the clock reaches

    Two executions that start from states equal up to time stamps and make
    the same call under different clock readings: each operation other than
    an enabled [cleanupTable] prints the same and leaves states equal up to
    time stamps. *)
Section ClockIndependence.

Variables (s1 s2 : Switch).
Hypothesis Hsim : same_but_timestamps s1 s2.

Lemma same_lookup_port (mac : string) :
  port <$> macTable s1 !! mac = port <$> macTable s2 !! mac.
Proof.
  destruct Hsim as [Hm _].
  apply (f_equal (λ m : gmap string Z, m !! mac)) in Hm.
  by rewrite !lookup_fmap in Hm.
Qed.

Lemma incr_framesProcessed_sim :
  same_but_timestamps (incr_framesProcessed s1) (incr_framesProcessed s2).
Proof.
  destruct Hsim as (Hm & Hn & Ha & Hc & Hs).
  unfold statistics in Hs. injection Hs as Hfp Hle Hfw Hfl.
  repeat split; simpl; try done. unfold statistics. simpl. congruence.
Qed.

Lemma learning_phase_sim (src : string) (p : Z) (t1 t2 : time_point) :
  same_but_timestamps (learning_phase src p t1 s1).1 (learning_phase src p t2 s2).1
  ∧ (learning_phase src p t1 s1).2 = (learning_phase src p t2 s2).2.
Proof.
  pose proof (same_lookup_port src) as Hsrc.
  destruct Hsim as (Hm & Hn & Ha & Hc & Hs).
  unfold statistics in Hs. injection Hs as Hfp Hle Hfw Hfl.
  assert (Hins : ∀ q,
    port <$> <[src := mkEntry q t1]> (macTable s1)
    = port <$> <[src := mkEntry q t2]> (macTable s2)).
  { intros q. rewrite !fmap_insert. simpl. by rewrite Hm. }
  unfold learning_phase.
  destruct (macTable s1 !! src) as [e1 |], (macTable s2 !! src) as [e2 |];
    simpl in Hsrc; try discriminate.
  - injection Hsrc as Hp. rewrite Hp.
    destruct (decide (port e2 ≠ p)); simpl;
      (split; [| done]); repeat split; simpl; try done;
      first [apply Hins | unfold statistics; simpl; congruence].
  - split; [| done]. repeat split; simpl; try done;
      first [apply Hins | unfold statistics; simpl; congruence].
Qed.

Lemma forwarding_decision_sim (dest : string) (p : Z) :
  same_but_timestamps (forwarding_decision dest p s1).1 (forwarding_decision dest p s2).1
  ∧ (forwarding_decision dest p s1).2 = (forwarding_decision dest p s2).2.
Proof.
  pose proof (same_lookup_port dest) as Hdest.
  destruct Hsim as (Hm & Hn & Ha & Hc & Hs).
  unfold statistics in Hs. injection Hs as Hfp Hle Hfw Hfl.
  unfold forwarding_decision. rewrite Hn.
  destruct (decide (dest = BROADCAST_MAC)).
  { split; [| done]. repeat split; simpl; try done.
    unfold statistics; simpl; congruence. }
  destruct (macTable s1 !! dest) as [e1 |], (macTable s2 !! dest) as [e2 |];
    simpl in Hdest; try discriminate.
  - injection Hdest as Hp. rewrite Hp.
    destruct (decide (port e2 = p)); simpl;
      (split; [| done]); repeat split; simpl; try done;
      unfold statistics; simpl; congruence.
  - split; [| done]. repeat split; simpl; try done.
    unfold statistics; simpl; congruence.
Qed.

End ClockIndependence.

Lemma processFrame_sim (s1 s2 : Switch) (src dest : string) (p : Z)
    (t1 t2 : time_point) :
  same_but_timestamps s1 s2 →
  same_but_timestamps (processFrame src dest p t1 s1).1 (processFrame src dest p t2 s2).1
  ∧ (processFrame src dest p t1 s1).2 = (processFrame src dest p t2 s2).2.
Proof.
  intros Hsim. rewrite !processFrame_unfold. simpl.
  pose proof (learning_phase_sim _ _ (incr_framesProcessed_sim _ _ Hsim) src p t1 t2)
    as [Hl1 Hl2].
  pose proof (forwarding_decision_sim _ _ Hl1 dest p) as [Hf1 Hf2].
  unfold after_learning. split; [exact Hf1 |]. by rewrite Hl2, Hf2.
Qed.

Lemma step_sim (s1 s2 : Switch) (c : Call) (t1 t2 : time_point) :
  same_but_timestamps s1 s2 →
  agingTimeout s1 ≤ 0 ∨ c ≠ CallCleanupTable →
  same_but_timestamps (step c t1 s1).1 (step c t2 s2).1
  ∧ (step c t1 s1).2 = (step c t2 s2).2.
Proof.
  intros Hsim Hc.
  destruct c as [frame q | a b q | | |]; simpl.
  - unfold processFrame_Frame.
    destruct (processFrame_sim s1 s2 (sourceMAC frame) (destMAC frame) q t1 t2 Hsim)
      as [H1 H2].
    split; [exact H1 | by rewrite H2].
  - destruct (processFrame_sim s1 s2 a b q t1 t2 Hsim) as [H1 H2].
    split; [exact H1 | by rewrite H2].
  - destruct Hc as [Hoff | Hne]; [| done].
    assert (agingTimeout s2 ≤ 0) as Hoff2.
    { destruct Hsim as (_ & _ & <- & _). exact Hoff. }
    rewrite !cleanupTable_disabled by done. done.
  - split; [| done].
    destruct Hsim as (Hm & Hn & Ha & Hcy & Hs).
    repeat split; simpl; try done.
  - split; [| done].
    destruct Hsim as (Hm & Hn & Ha & Hcy & Hs).
    repeat split; simpl; try done. congruence.
Qed.

Lemma step_agingTimeout (c : Call) (now : time_point) (s : Switch) :
  agingTimeout (step c now s).1 = agingTimeout s.
Proof.
  destruct c as [frame q | a b q | | |]; simpl; try done.
  - apply processFrame_config.
  - apply processFrame_config.
  - apply cleanupTable_frame.
Qed.

Lemma run_sim (tr1 tr2 : list (Call * time_point)) (s1 s2 : Switch) :
  tr1.*1 = tr2.*1 →
  same_but_timestamps s1 s2 →
  agingTimeout s1 ≤ 0 ∨ CallCleanupTable ∉ tr1.*1 →
  same_but_timestamps (run tr1 s1).1 (run tr2 s2).1
  ∧ (run tr1 s1).2 = (run tr2 s2).2.
Proof.
  revert tr2 s1 s2.
  induction tr1 as [| [c t1] tr1 IH]; intros [| [c' t2] tr2] s1 s2 Hcalls Hsim Hage;
    try discriminate; simpl.
  - done.
  - simpl in Hcalls. injection Hcalls as <- Hcalls.
    assert (Hc : agingTimeout s1 ≤ 0 ∨ c ≠ CallCleanupTable).
    { destruct Hage as [? | Hnot]; [by left | right].
      intros ->. apply Hnot. simpl. left. }
    destruct (step_sim s1 s2 c t1 t2 Hsim Hc) as [Hs1 Ho1].
    destruct (IH tr2 (step c t1 s1).1 (step c t2 s2).1 Hcalls Hs1) as [Hs2 Ho2].
    { rewrite step_agingTimeout.
      destruct Hage as [? | Hnot]; [by left | right].
      intros Hin. apply Hnot. simpl. by right. }
    split; [exact Hs2 | by rewrite Ho1, Ho2].
Qed.

Lemma same_but_timestamps_refl (s : Switch) : same_but_timestamps s s.
Proof. by repeat split. Qed.

(** C8, as the code has it.  The member functions take no time from the
    caller; they read the steady clock themselves.  What the clock can
    change is confined to the time stamps and to what an enabled
    [cleanupTable] does with them: two runs of one call sequence under any
    two series of clock readings print the same lines, and end with the same
    statistics, the same port for every address and the same configuration,
    provided aging is disabled (timeout zero or less) or [cleanupTable] is
    not among the calls. *)
Theorem C8_clock_reaches_only_aging (tr1 tr2 : list (Call * time_point))
    (s : Switch) :
  tr1.*1 = tr2.*1 →
  agingTimeout s ≤ 0 ∨ CallCleanupTable ∉ tr1.*1 →
  (run tr1 s).2 = (run tr2 s).2
  ∧ statistics (run tr1 s).1 = statistics (run tr2 s).1
  ∧ (∀ mac, lookup_port mac (run tr1 s).1 = lookup_port mac (run tr2 s).1)
  ∧ (∀ mac, isLearned mac (run tr1 s).1 = isLearned mac (run tr2 s).1)
  ∧ same_but_timestamps (run tr1 s).1 (run tr2 s).1.
Proof.
  intros Hcalls Hage.
  destruct (run_sim tr1 tr2 s s Hcalls (same_but_timestamps_refl s) Hage)
    as [Hsim Hout].
  split; [exact Hout |].
  split; [apply Hsim |].
  split; [intros mac; apply (same_lookup_port _ _ Hsim) |].
  split; [| exact Hsim].
  intros mac. unfold isLearned.
  pose proof (same_lookup_port _ _ Hsim mac) as Hp.
  apply bool_decide_ext. rewrite <- !fmap_is_Some with (f := port). by rewrite Hp.
Qed.

Lemma C8_witness :
  let calls := [CallProcessFrame MAC_PC_A MAC_PC_B 1;
                CallProcessFrame MAC_PC_B MAC_PC_A 2;
                CallCleanupTable] in
  let tr1 := zip calls [seconds 0; seconds 0; seconds 6] in
  let tr2 := zip calls [seconds 0; seconds 3; seconds 4] in
  (run tr1 (Switch_ctor 4 0)).2 = (run tr2 (Switch_ctor 4 0)).2
  ∧ statistics (run tr1 (Switch_ctor 4 0)).1 = statistics (run tr2 (Switch_ctor 4 0)).1.
Proof.
  intros calls tr1 tr2.
  pose proof (C8_clock_reaches_only_aging tr1 tr2 (Switch_ctor 4 0)) as H.
  destruct H as (Hout & Hstat & _).
  - reflexivity.
  - left. simpl. lia.
  - split; [exact Hout | exact Hstat].
Defined.

(** C8 as stated fails: the scenario of [demonstrateAging].  The same two
    calls, a frame and then a cleanup on a switch with a timeout of 5
    seconds, leave an empty table when the clock has advanced 6 seconds
    between them and a table of one entry when it has advanced 1 second; the
    caller passes the same arguments in both runs. *)
Lemma C8_counterexample :
  let calls := [CallProcessFrame MAC_PC_A MAC_PC_B 1; CallCleanupTable] in
  let tr1 := zip calls [seconds 0; seconds 6] in
  let tr2 := zip calls [seconds 0; seconds 1] in
  let s := Switch_ctor 4 5 in
  tr1.*1 = calls ∧ tr2.*1 = calls
  ∧ isLearned MAC_PC_A (run tr1 s).1 = false
  ∧ isLearned MAC_PC_A (run tr2 s).1 = true
  ∧ getMACTableSize (run tr1 s).1 ≠ getMACTableSize (run tr2 s).1
  ∧ (run tr1 s).2 ≠ (run tr2 s).2.
Proof.
  vm_compute. repeat split; try reflexivity; discriminate.
Qed.

(** C9, as the code has it.  Addresses are the strings the caller passes,
    compared character by character; nothing is put in a canonical form.
    Learning an address touches the entry of that very string only, so an
    address is known after a call exactly when it is the source string
    itself or was known before.  The forwarding decision takes the broadcast
    branch exactly for the string "FF:FF:FF:FF:FF:FF"; any other
    destination, the all-ones address in lower case included, is handled as
    a unicast address: flooded as unknown when absent from the table,
    filtered or forwarded according to its entry when present. *)
Theorem C9_addresses_are_exact_strings (a b dest : string) (p : Z)
    (now : time_point) (s : Switch) :
  let r := processFrame a dest p now s in
  (a ≠ b → macTable r.1 !! b = macTable s !! b)
  ∧ (isLearned b r.1 = true ↔ b = a ∨ isLearned b s = true)
  ∧ ((∃ ports, r.2.2 = BROADCAST ports) ↔ dest = BROADCAST_MAC)
  ∧ (dest ≠ BROADCAST_MAC →
     r.2.2 = match macTable (after_learning a p now s) !! dest with
             | None => UNKNOWN_UNICAST (flooding_ports (numPorts s) p)
             | Some e => if decide (port e = p) then FILTERING
                         else FORWARDING (port e)
             end).
Proof.
  intros r. subst r.
  assert (Hn : numPorts (after_learning a p now s) = numPorts s).
  { unfold after_learning.
    destruct (learning_phase_frame a p now (incr_framesProcessed s)) as [-> _].
    reflexivity. }
  split; [| split; [| split]].
  - intros Hne. by apply processFrame_lookup_ne.
  - unfold isLearned. rewrite !bool_decide_eq_true, processFrame_macTable.
    destruct (decide (b = a)) as [-> | Hne].
    + rewrite lookup_insert_eq. split; [by left | eauto].
    + rewrite lookup_insert_ne by done. split; [by right |].
      intros [? | ?]; done.
  - rewrite processFrame_unfold. simpl. unfold forwarding_decision.
    destruct (decide (dest = BROADCAST_MAC)) as [Hb | Hb].
    + split; [done |]. intros _. eexists. reflexivity.
    + split; [| done]. intros [ports Hp].
      destruct (macTable (after_learning a p now s) !! dest) as [e |];
        [destruct (decide (port e = p)) |]; discriminate.
  - intros Hb. rewrite processFrame_unfold. simpl. unfold forwarding_decision.
    rewrite decide_False by done.
    destruct (macTable (after_learning a p now s) !! dest) as [e |]; simpl;
      [by destruct (decide (port e = p)) | by rewrite Hn].
Qed.

Lemma C9_witness :
  let lower := "aa:aa:aa:aa:aa:aa" in
  let r := processFrame lower "ff:ff:ff:ff:ff:ff" 1 0 (Switch_ctor 4 300) in
  macTable r.1 !! MAC_PC_A = None
  ∧ r.2.2 = UNKNOWN_UNICAST [2; 3; 4].
Proof.
  intros lower r.
  pose proof (C9_addresses_are_exact_strings
                lower MAC_PC_A "ff:ff:ff:ff:ff:ff" 1 0 (Switch_ctor 4 300))
    as (Hne & _ & _ & Hu).
  split.
  - subst r. rewrite Hne; [reflexivity | vm_compute; discriminate].
  - subst r. rewrite Hu; [reflexivity | vm_compute; discriminate].
Defined.

(** C9 as stated fails.  "aa:aa:aa:aa:aa:aa" and "AA:AA:AA:AA:AA:AA" differ
    in case only, yet learning the first leaves the second unknown.  The
    lower-case all-ones address is not taken for the broadcast address: on
    an empty table it is reported as an unknown unicast destination, and
    once that string is in the table at port 2 a frame for it arriving on
    port 1 is delivered to port 2, where the upper-case broadcast address is
    flooded. *)
Lemma C9_counterexample :
  let lower := "aa:aa:aa:aa:aa:aa" in
  let ones := "ff:ff:ff:ff:ff:ff" in
  let s := (processFrame lower MAC_PC_B 1 0 (Switch_ctor 4 300)).1 in
  let s2 := (processFrame ones MAC_PC_B 2 0 (Switch_ctor 4 300)).1 in
  same_address lower MAC_PC_A
  ∧ isLearned lower s = true
  ∧ isLearned MAC_PC_A s = false
  ∧ lookup_port MAC_PC_A s = None
  ∧ same_address ones BROADCAST_MAC
  ∧ (processFrame MAC_PC_A ones 1 0 (Switch_ctor 4 300)).2.2 = UNKNOWN_UNICAST [2; 3; 4]
  ∧ decide_action MAC_PC_A ones 1 0 s2 = Deliver 2
  ∧ decide_action MAC_PC_A BROADCAST_MAC 1 0 s2 = Flood 1.
Proof.
  vm_compute. repeat split; reflexivity.
Qed.

(** C10.  The two overloads of [processFrame] agree: processing the frame
    built from a source, a destination, an EtherType and a payload gives the
    same switch state and the same printed lines (hence the same decision and
    the same statistics) as processing the two addresses, whatever the
    EtherType and the payload are. *)
Theorem C10_overloads_agree (src dest type data type' data' : string) (p : Z)
    (now : time_point) (s : Switch) (frame : Frame) :
  processFrame_Frame (mkFrame src dest type data) p now s
    = processFrame src dest p now s
  ∧ processFrame_Frame (mkFrame src dest type data) p now s
    = processFrame_Frame (mkFrame src dest type' data') p now s
  ∧ processFrame_Frame (Frame_ctor2 src dest) p now s = processFrame src dest p now s
  ∧ processFrame_Frame (Frame_ctor3 src dest type) p now s = processFrame src dest p now s
  ∧ step (CallProcessFrameF (mkFrame src dest type data) p) now s
    = step (CallProcessFrame src dest p) now s
  ∧ processFrame_Frame frame p now s
    = processFrame (sourceMAC frame) (destMAC frame) p now s.
Proof. repeat split. Qed.

(** * Further properties of the code *)

(** ** One call *)

Lemma step_macTable_processFrame (c : Call) (now : time_point) (s : Switch) :
  is_processFrame c = true →
  ∃ src p, macTable (step c now s).1 = <[src := mkEntry p now]> (macTable s)
           ∧ ∀ n, call_in_range n c → 1 ≤ p ≤ n.
Proof.
  destruct c as [frame q | a b q | | |]; simpl; try discriminate; intros _.
  - exists (sourceMAC frame), q. unfold processFrame_Frame.
    rewrite processFrame_macTable. split; [done | auto].
  - exists a, q. rewrite processFrame_macTable. split; [done | auto].
Qed.

Lemma processFrame_size src dest p now s :
  getMACTableSize (processFrame src dest p now s).1 =
    getMACTableSize s + (match macTable s !! src with Some _ => 0 | None => 1 end).
Proof.
  unfold getMACTableSize. rewrite processFrame_macTable, map_size_insert.
  destruct (macTable s !! src); simpl; lia.
Qed.

(** C++ [size()] of the table against the listing and the queries. *)
Lemma getMACTableSize_zero (s : Switch) :
  getMACTableSize s = 0 ↔ macTable s = ∅.
Proof.
  unfold getMACTableSize. rewrite <- map_size_empty_iff. lia.
Qed.

(** X1.  A call of [processFrame] makes the table one entry larger when the
    source address was not in it, which is when it prints the "LEARNING"
    line, and leaves its size as it was otherwise; the table never shrinks
    and is never empty after a frame. *)
Theorem X1_processFrame_table_size (src dest : string) (p : Z)
    (now : time_point) (s : Switch) :
  let r := processFrame src dest p now s in
  getMACTableSize r.1 = getMACTableSize s + (if isLearned src s then 0 else 1)
  ∧ (getMACTableSize r.1 = getMACTableSize s + 1 ↔ r.2.1 = LEARNING)
  ∧ (getMACTableSize r.1 = getMACTableSize s ↔ r.2.1 ≠ LEARNING)
  ∧ 1 ≤ getMACTableSize r.1.
Proof.
  intros r. subst r.
  rewrite processFrame_size, processFrame_learn_line.
  assert (0 ≤ getMACTableSize s) by (unfold getMACTableSize; lia).
  unfold isLearned.
  destruct (macTable s !! src) as [e |] eqn:He.
  - rewrite bool_decide_eq_true_2 by eauto. simpl.
    assert (Hl : (if decide (port e ≠ p) then UPDATE (port e) else REFRESH) ≠ LEARNING)
      by (by destruct (decide (port e ≠ p))).
    assert (getMACTableSize s ≠ 0) as Hnz.
    { rewrite getMACTableSize_zero. intros Hempty.
      rewrite Hempty, lookup_empty in He. discriminate. }
    split; [lia |]. split; [| split; [| lia]].
    + split; [lia | done].
    + split; [done | lia].
  - rewrite bool_decide_eq_false_2 by (intros [? ?]; discriminate). simpl.
    split; [lia |]. split; [| split; [| lia]].
    + split; [done | lia].
    + split; [lia | done].
Qed.

(** X2.  Every call of [processFrame] classifies the frame in exactly one
    way and counts it accordingly: a flood line (broadcast or unknown
    unicast) adds one to [floodingEvents] and leaves [forwardingEvents], a
    "FORWARDING" line adds one to [forwardingEvents] and leaves
    [floodingEvents], and a "FILTERING" line leaves both. *)
Theorem X2_decision_counters (src dest : string) (p : Z) (now : time_point)
    (s : Switch) :
  let r := processFrame src dest p now s in
  match action_of p r.2.2 with
  | Flood _ =>
      floodingEvents r.1 = floodingEvents s + 1
      ∧ forwardingEvents r.1 = forwardingEvents s
  | Deliver _ =>
      floodingEvents r.1 = floodingEvents s
      ∧ forwardingEvents r.1 = forwardingEvents s + 1
  | Drop =>
      floodingEvents r.1 = floodingEvents s
      ∧ forwardingEvents r.1 = forwardingEvents s
  end.
Proof.
  intros r. pose proof (processFrame_decision_counters src dest p now s) as H.
  simpl in H. subst r. by destruct (processFrame src dest p now s).2.2.
Qed.

(** ** Invariants of runs *)

Lemma run_invariant (P : Switch → Prop) :
  (∀ c now s, P s → P (step c now s).1) →
  ∀ tr s, P s → P (run tr s).1.
Proof.
  intros Hstep tr. induction tr as [| [c t] tr IH]; intros s Hs; simpl.
  - exact Hs.
  - apply IH, Hstep, Hs.
Qed.

Lemma cleanupTable_macTable (now : time_point) (s : Switch) :
  0 < agingTimeout s →
  macTable (cleanupTable now s).1
  = filter (λ kv, ¬ elapsed now kv.2 > agingTimeout s) (macTable s).
Proof.
  intros Hpos. apply map_eq. intros mac.
  rewrite cleanupTable_lookup by done.
  destruct (macTable s !! mac) as [e |] eqn:He.
  - destruct (decide (elapsed now e > agingTimeout s)) as [Hold | Hyoung].
    + symmetry. apply map_lookup_filter_None. right. intros e' He'.
      simpl. rewrite He in He'. injection He' as <-. tauto.
    + symmetry. apply map_lookup_filter_Some. done.
  - symmetry. apply map_lookup_filter_None. by left.
Qed.

Lemma cleanupTable_subseteq (now : time_point) (s : Switch) :
  macTable (cleanupTable now s).1 ⊆ macTable s.
Proof.
  destruct (decide (agingTimeout s ≤ 0)) as [Hoff | Hon].
  - by rewrite cleanupTable_disabled.
  - rewrite cleanupTable_macTable by lia. apply map_filter_subseteq.
Qed.

Lemma step_counters_consistent (c : Call) (now : time_point) (s : Switch) :
  counters_consistent s → counters_consistent (step c now s).1.
Proof.
  assert (Hpf : ∀ a b q, counters_consistent s →
            counters_consistent (processFrame a b q now s).1).
  { intros a b q (Hle & Hfw & Hfl & Hsum & Hsz).
    pose proof (processFrame_framesProcessed a b q now s) as Hfp.
    pose proof (processFrame_learningEvents a b q now s) as Hl.
    pose proof (processFrame_size a b q now s) as Hs.
    pose proof (processFrame_decision_counters a b q now s) as Hd. simpl in Hd.
    unfold counters_consistent.
    destruct (macTable s !! a);
      destruct (processFrame a b q now s).2.2; lia. }
  intros Hc. destruct c as [frame q | a b q | | |]; simpl.
  - apply Hpf, Hc.
  - apply Hpf, Hc.
  - destruct Hc as (Hle & Hfw & Hfl & Hsum & Hsz).
    destruct (cleanupTable_frame now s) as (_ & _ & _ & Hst).
    unfold statistics in Hst. injection Hst as Hfp Hl Hf Hd.
    pose proof (map_subseteq_size _ _ (cleanupTable_subseteq now s)) as Hsub.
    unfold counters_consistent, getMACTableSize in *. lia.
  - destruct Hc as (Hle & Hfw & Hfl & Hsum & Hsz).
    unfold counters_consistent, getMACTableSize in *. simpl.
    rewrite map_size_empty. lia.
  - exact Hc.
Qed.

Lemma counters_consistent_are_int (s : Switch) :
  counters_consistent s → 0 ≤ currentCycle s →
  framesProcessed s ≤ INT_MAX → currentCycle s ≤ INT_MAX →
  counters_are_int s.
Proof.
  intros (Hle & Hfw & Hfl & Hsum & Hsz) Hcy Hf Hy.
  unfold counters_are_int, is_int, INT_MIN, INT_MAX in *. lia.
Qed.

Lemma step_bookkeeping (c : Call) (now : time_point) (s : Switch) :
  let s' := (step c now s).1 in
  framesProcessed s' = framesProcessed s + (if is_processFrame c then 1 else 0)
  ∧ currentCycle s' = currentCycle s + (if is_advanceCycle c then 1 else 0)
  ∧ numPorts s' = numPorts s ∧ agingTimeout s' = agingTimeout s.
Proof.
  destruct c as [frame q | a b q | | |]; simpl.
  - unfold processFrame_Frame. rewrite processFrame_framesProcessed.
    destruct (processFrame_config (sourceMAC frame) (destMAC frame) q now s)
      as (-> & -> & ->). lia.
  - rewrite processFrame_framesProcessed.
    destruct (processFrame_config a b q now s) as (-> & -> & ->). lia.
  - destruct (cleanupTable_frame now s) as (-> & -> & -> & Hst).
    unfold statistics in Hst. injection Hst as -> _ _ _. lia.
  - lia.
  - lia.
Qed.

(** A run of at most [INT_MAX] calls from a consistent state with room left
    in the frame and cycle counters keeps the counters within [int]. *)
Lemma bounded_run_within_int (tr : list (Call * time_point)) (s : Switch) :
  counters_consistent s → 0 ≤ currentCycle s →
  framesProcessed s + Z.of_nat (List.length tr) ≤ INT_MAX →
  currentCycle s + Z.of_nat (List.length tr) ≤ INT_MAX →
  run_within_int tr s.
Proof.
  revert s. induction tr as [| [c t] tr IH]; intros s Hc Hcy Hf Hy.
  - cbn [run_within_int List.length] in *.
    apply counters_consistent_are_int; try done; lia.
  - cbn [run_within_int List.length] in *.
    destruct (step_bookkeeping c t s) as (Hf1 & Hy1 & _). simpl in Hf1, Hy1.
    split.
    + apply counters_consistent_are_int; try done; lia.
    + apply IH.
      * by apply step_counters_consistent.
      * rewrite Hy1. destruct (is_advanceCycle c); lia.
      * rewrite Hf1. destruct (is_processFrame c); lia.
      * rewrite Hy1. destruct (is_advanceCycle c); lia.
Qed.

(** X3.  The counters of a switch stay consistent along every run from its
    constructor that keeps them within [int], under any clock: none is
    negative, [learningEvents] is at most [framesProcessed],
    [forwardingEvents] and [floodingEvents] together are at most
    [framesProcessed] (the rest being the filtered frames), and the table
    holds at most [learningEvents] entries.  Every run of at most [INT_MAX]
    calls from the constructor is such a run. *)
Theorem X3_counters_consistent (ports timeout : Z)
    (tr : list (Call * time_point)) :
  (Z.of_nat (List.length tr) ≤ INT_MAX →
   run_within_int tr (Switch_ctor ports timeout))
  ∧ (run_within_int tr (Switch_ctor ports timeout) →
     let s := (run tr (Switch_ctor ports timeout)).1 in
     0 ≤ learningEvents s ≤ framesProcessed s
     ∧ 0 ≤ forwardingEvents s
     ∧ 0 ≤ floodingEvents s
     ∧ forwardingEvents s + floodingEvents s ≤ framesProcessed s
     ∧ getMACTableSize s ≤ learningEvents s).
Proof.
  assert (H0 : counters_consistent (Switch_ctor ports timeout)).
  { unfold counters_consistent, getMACTableSize. simpl.
    rewrite map_size_empty. lia. }
  split.
  - intros Hlen. apply bounded_run_within_int; simpl; try done; lia.
  - intros _.
    apply (run_invariant counters_consistent step_counters_consistent).
    exact H0.
Qed.

Lemma X3_witness :
  let tr := [(CallProcessFrame MAC_PC_A MAC_PC_B 1, seconds 0);
             (CallProcessFrame MAC_PC_B MAC_PC_A 2, seconds 1);
             (CallAdvanceCycle, seconds 2);
             (CallCleanupTable, seconds 9)] in
  let s := (run tr (Switch_ctor 4 5)).1 in
  0 ≤ learningEvents s ≤ framesProcessed s
  ∧ 0 ≤ forwardingEvents s
  ∧ 0 ≤ floodingEvents s
  ∧ forwardingEvents s + floodingEvents s ≤ framesProcessed s
  ∧ getMACTableSize s ≤ learningEvents s.
Proof.
  intros tr.
  destruct (X3_counters_consistent 4 5 tr) as [Hbound Hinv].
  apply Hinv. apply Hbound. vm_compute. discriminate.
Defined.

(** X4.  Over a run that keeps the counters within [int], [framesProcessed]
    grows by the number of [processFrame] calls and [currentCycle] by the
    number of [advanceCycle] calls; the configuration, [numPorts] and
    [agingTimeout], is the one the switch started with, and every call
    yields one output. *)
Theorem X4_run_bookkeeping (tr : list (Call * time_point)) (s : Switch) :
  run_within_int tr s →
  let s' := (run tr s).1 in
  framesProcessed s'
    = framesProcessed s + Z.of_nat (List.length (filter (λ c, is_processFrame c = true) tr.*1))
  ∧ currentCycle s'
    = currentCycle s + Z.of_nat (List.length (filter (λ c, is_advanceCycle c = true) tr.*1))
  ∧ numPorts s' = numPorts s
  ∧ agingTimeout s' = agingTimeout s
  ∧ List.length (run tr s).2 = List.length tr.
Proof.
  intros _.
  revert s. induction tr as [| [c t] tr IH]; intros s.
  - simpl. repeat split; lia.
  - rewrite fmap_cons. cbn [run fst snd List.length].
    destruct (IH (step c t s).1) as (Hfp & Hcy & Hn & Ha & Hlen).
    destruct (step_bookkeeping c t s) as (Hfp1 & Hcy1 & Hn1 & Ha1).
    simpl in Hfp1, Hcy1, Hn1, Ha1.
    rewrite !filter_cons.
    split; [| split; [| split; [congruence | split; [congruence | lia]]]].
    + rewrite Hfp, Hfp1.
      destruct (is_processFrame c); cbv iota;
        [rewrite decide_True by done; rewrite length_cons
        | rewrite decide_False by done]; lia.
    + rewrite Hcy, Hcy1.
      destruct (is_advanceCycle c); cbv iota;
        [rewrite decide_True by done; rewrite length_cons
        | rewrite decide_False by done]; lia.
Qed.

Lemma X4_witness :
  let tr := [(CallProcessFrame MAC_PC_A MAC_PC_B 1, seconds 0);
             (CallAdvanceCycle, seconds 1);
             (CallProcessFrame MAC_PC_B MAC_PC_A 2, seconds 2);
             (CallCleanupTable, seconds 9)] in
  let s' := (run tr (Switch_ctor 4 5)).1 in
  framesProcessed s' = 0 + 2 ∧ currentCycle s' = 0 + 1
  ∧ numPorts s' = 4 ∧ agingTimeout s' = 5.
Proof.
  intros tr.
  destruct (X4_run_bookkeeping tr (Switch_ctor 4 5)) as (Hf & Hc & Hn & Ha & _).
  - vm_compute. repeat split; discriminate.
  - split; [exact Hf | split; [exact Hc | split; [exact Hn | exact Ha]]].
Defined.

(** ** Ports and time stamps in the table *)

Lemma forwarding_decision_forwarding dest p s q :
  (forwarding_decision dest p s).2 = FORWARDING q →
  ∃ e, macTable s !! dest = Some e ∧ port e = q ∧ q ≠ p.
Proof.
  unfold forwarding_decision.
  destruct (decide (dest = BROADCAST_MAC)); [discriminate |].
  destruct (macTable s !! dest) as [e |]; [| discriminate].
  destruct (decide (port e = p)); simpl; [discriminate |].
  intros [= <-]. eauto.
Qed.

Lemma insert_ports_in_range (s s' : Switch) (src : string) (p : Z) (now : time_point) :
  ports_in_range s → 1 ≤ p ≤ numPorts s →
  numPorts s' = numPorts s →
  macTable s' = <[src := mkEntry p now]> (macTable s) →
  ports_in_range s'.
Proof.
  intros Hs Hp Hn Hm mac e. rewrite Hm, Hn.
  destruct (decide (mac = src)) as [-> | Hne].
  - rewrite lookup_insert_eq. intros [= <-]. exact Hp.
  - rewrite lookup_insert_ne by done. apply Hs.
Qed.

Lemma processFrame_ports_in_range src dest p now s :
  ports_in_range s → 1 ≤ p ≤ numPorts s →
  ports_in_range (processFrame src dest p now s).1
  ∧ ∀ q, (processFrame src dest p now s).2.2 = FORWARDING q → 1 ≤ q ≤ numPorts s.
Proof.
  intros Hs Hp. split.
  - apply (insert_ports_in_range s _ src p now); try done.
    + apply processFrame_config.
    + apply processFrame_macTable.
  - intros q. rewrite processFrame_unfold. simpl. intros Hq.
    apply forwarding_decision_forwarding in Hq as (e & He & <- & _).
    assert (Hal : ports_in_range (after_learning src p now s)).
    { apply (insert_ports_in_range s _ src p now); try done.
      - unfold after_learning.
        by destruct (learning_phase_frame src p now (incr_framesProcessed s)) as [-> _].
      - apply after_learning_macTable. }
    assert (Hn : numPorts (after_learning src p now s) = numPorts s).
    { unfold after_learning.
      by destruct (learning_phase_frame src p now (incr_framesProcessed s)) as [-> _]. }
    rewrite <- Hn. by apply (Hal dest).
Qed.

Lemma step_ports_in_range (c : Call) (now : time_point) (s : Switch) :
  ports_in_range s → call_in_range (numPorts s) c →
  ports_in_range (step c now s).1
  ∧ ∀ q, forwarded_port (step c now s).2 = Some q → 1 ≤ q ≤ numPorts s.
Proof.
  intros Hs Hc. destruct c as [frame q | a b q | | |]; simpl in *.
  - unfold processFrame_Frame.
    destruct (processFrame_ports_in_range (sourceMAC frame) (destMAC frame) q now s Hs Hc)
      as [H1 H2].
    split; [exact H1 |]. intros q'.
    destruct (processFrame (sourceMAC frame) (destMAC frame) q now s).2 as [l f] eqn:E.
    destruct f; try discriminate. intros [= <-]. by apply H2.
  - destruct (processFrame_ports_in_range a b q now s Hs Hc) as [H1 H2].
    split; [exact H1 |]. intros q'.
    destruct (processFrame a b q now s).2 as [l f] eqn:E.
    destruct f; try discriminate. intros [= <-]. by apply H2.
  - split; [| discriminate]. intros mac e He.
    destruct (cleanupTable_frame now s) as (-> & _).
    apply (Hs mac). eapply lookup_weaken; [exact He | apply cleanupTable_subseteq].
  - split; [| discriminate]. intros mac e He. simpl in He.
    rewrite lookup_empty in He. discriminate.
  - split; [| discriminate]. exact Hs.
Qed.

(** X5.  When every frame arrives on a port of the switch, every port
    recorded in the table is a port of the switch, and so is every port a
    "FORWARDING" line names: starting from a table with ports in
    [1, numPorts] (the empty table of the constructor is one), a run whose
    [processFrame] calls all have their arrival port in [1, numPorts] keeps
    the table within that range and forwards only to ports within it. *)
Theorem X5_ports_stay_in_range (tr : list (Call * time_point)) (s : Switch) :
  ports_in_range s →
  Forall (call_in_range (numPorts s)) tr.*1 →
  ports_in_range (run tr s).1
  ∧ Forall (λ o, ∀ q, forwarded_port o = Some q → 1 ≤ q ≤ numPorts s) (run tr s).2.
Proof.
  revert s. induction tr as [| [c t] tr IH]; intros s Hs Hcalls.
  - simpl. split; [exact Hs | constructor].
  - rewrite fmap_cons in Hcalls. apply Forall_cons in Hcalls as [Hc Hcalls].
    cbn [run fst snd].
    destruct (step_ports_in_range c t s Hs Hc) as [Hs1 Hq1].
    destruct (step_bookkeeping c t s) as (_ & _ & Hn & _). simpl in Hn.
    destruct (IH (step c t s).1 Hs1) as [Hs2 Hq2]; [by rewrite Hn |].
    split; [exact Hs2 |]. constructor; [exact Hq1 |].
    by rewrite Hn in Hq2.
Qed.

Lemma X5_witness :
  let s' := (run [(CallProcessFrame MAC_PC_A MAC_PC_B 1, 0);
                  (CallProcessFrame MAC_PC_B MAC_PC_A 2, 1)] (Switch_ctor 4 5)).1 in
  1 ≤ port (mkEntry 2 1) ≤ numPorts s'.
Proof.
  intros s'.
  destruct (X5_ports_stay_in_range
              [(CallProcessFrame MAC_PC_A MAC_PC_B 1, 0);
               (CallProcessFrame MAC_PC_B MAC_PC_A 2, 1)] (Switch_ctor 4 5))
    as [H _].
  - intros mac e He. simpl in He. rewrite lookup_empty in He. discriminate.
  - repeat constructor; simpl; lia.
  - apply (H MAC_PC_B (mkEntry 2 1)). vm_compute. reflexivity.
Defined.

Lemma elapsed_nonneg (now : time_point) (e : MACTableEntry) :
  timestamp e ≤ now → 0 ≤ elapsed now e.
Proof.
  intros H. unfold elapsed, duration_cast_seconds.
  apply Z.quot_pos; [lia | apply ticks_per_second_pos].
Qed.

Lemma step_timestamps_upto (c : Call) (t now : time_point) (s : Switch) :
  timestamps_upto t s → t ≤ now → timestamps_upto now (step c now s).1.
Proof.
  intros Hs Ht.
  assert (Hweak : timestamps_upto now s).
  { intros mac e He. specialize (Hs mac e He). lia. }
  destruct c as [frame q | a b q | | |]; simpl.
  - unfold processFrame_Frame. intros mac e. rewrite processFrame_macTable.
    destruct (decide (mac = sourceMAC frame)) as [-> | Hne].
    + rewrite lookup_insert_eq. intros [= <-]. simpl. lia.
    + rewrite lookup_insert_ne by done. apply Hweak.
  - intros mac e. rewrite processFrame_macTable.
    destruct (decide (mac = a)) as [-> | Hne].
    + rewrite lookup_insert_eq. intros [= <-]. simpl. lia.
    + rewrite lookup_insert_ne by done. apply Hweak.
  - intros mac e He. apply (Hweak mac).
    eapply lookup_weaken; [exact He | apply cleanupTable_subseteq].
  - intros mac e He. simpl in He. rewrite lookup_empty in He. discriminate.
  - exact Hweak.
Qed.

Lemma printMACTable_row (now : time_point) (s : Switch) rows mac :
  printMACTable now s = Some rows →
  rows !! mac = (λ e, (port e, elapsed now e)) <$> macTable s !! mac.
Proof.
  unfold printMACTable.
  destruct (decide (size (macTable s) = 0%nat)); [discriminate |].
  intros [= <-]. apply lookup_fmap.
Qed.

(** X6.  Under a clock that never goes back, no entry carries a time stamp
    later than the last clock reading, whatever calls are made; hence the
    ages [printMACTable] lists at that time or later are never negative. *)
Theorem X6_timestamps_behind_clock (tr : list (Call * time_point))
    (t : time_point) (s : Switch) :
  timestamps_upto t s →
  monotone_clock t tr →
  timestamps_upto (final_clock t tr) (run tr s).1
  ∧ ∀ now rows mac q age,
      final_clock t tr ≤ now →
      printMACTable now (run tr s).1 = Some rows →
      rows !! mac = Some (q, age) → 0 ≤ age.
Proof.
  intros Hs Hmono.
  assert (Hfin : timestamps_upto (final_clock t tr) (run tr s).1).
  { revert t s Hs Hmono. induction tr as [| [c t'] tr IH]; intros t s Hs Hmono.
    - exact Hs.
    - destruct Hmono as [Hle Hmono]. cbn [run final_clock fst snd].
      apply IH; [| exact Hmono]. by apply (step_timestamps_upto c t t'). }
  split; [exact Hfin |].
  intros now rows mac q age Hnow Hrows Hrow.
  rewrite (printMACTable_row _ _ _ mac Hrows) in Hrow.
  destruct (macTable (run tr s).1 !! mac) as [e |] eqn:He; [| discriminate].
  simpl in Hrow. injection Hrow as _ <-.
  apply elapsed_nonneg. specialize (Hfin mac e He). lia.
Qed.

Lemma X6_witness :
  timestamp (mkEntry 2 (seconds 3)) ≤ seconds 3.
Proof.
  destruct (X6_timestamps_behind_clock
              [(CallProcessFrame MAC_PC_A MAC_PC_B 1, seconds 1);
               (CallCleanupTable, seconds 2);
               (CallProcessFrame MAC_PC_B MAC_PC_A 2, seconds 3)]
              (seconds 0) (Switch_ctor 4 5))
    as [H _].
  - intros mac e He. simpl in He. rewrite lookup_empty in He. discriminate.
  - simpl. unfold seconds, ticks_per_second. lia.
  - apply (H MAC_PC_B (mkEntry 2 (seconds 3))). vm_compute. reflexivity.
Defined.

(** ** [clearMACTable] and [advanceCycle] *)

(** X7.  [clearMACTable] empties the table and nothing else: afterwards the
    size is zero, no address is learned and the listing is the empty one,
    while the four counters and the configuration keep their values (the
    statistics are not reset).  Clearing twice is clearing once, and the
    next frame from any source is learned as a new address. *)
Theorem X7_clearMACTable (s : Switch) (mac src dest : string) (p : Z)
    (now : time_point) :
  let s' := clearMACTable s in
  getMACTableSize s' = 0
  ∧ isLearned mac s' = false
  ∧ lookup_port mac s' = None
  ∧ printMACTable now s' = None
  ∧ statistics s' = statistics s
  ∧ numPorts s' = numPorts s ∧ agingTimeout s' = agingTimeout s
  ∧ currentCycle s' = currentCycle s
  ∧ clearMACTable s' = s'
  ∧ (processFrame src dest p now s').2.1 = LEARNING
  ∧ learningEvents (processFrame src dest p now s').1 = learningEvents s + 1
  ∧ getMACTableSize (processFrame src dest p now s').1 = 1.
Proof.
  intros s'. subst s'.
  repeat split; try reflexivity.
  - rewrite processFrame_learn_line. simpl. by rewrite lookup_empty.
  - rewrite processFrame_learningEvents. simpl. by rewrite lookup_empty.
  - rewrite processFrame_size. simpl. by rewrite lookup_empty.
Qed.

Lemma step_advanceCycle_commute (c : Call) (now : time_point) (s : Switch) :
  step c now (advanceCycle s) = (advanceCycle (step c now s).1, (step c now s).2).
Proof.
  assert (Hpf : ∀ a b q, processFrame a b q now (advanceCycle s)
            = (advanceCycle (processFrame a b q now s).1, (processFrame a b q now s).2)).
  { intros a b q. unfold processFrame, learning_phase, forwarding_decision. simpl.
    destruct (macTable s !! a) as [e |]; simpl.
    - destruct (decide (port e ≠ q)); simpl;
        destruct (decide (b = BROADCAST_MAC)); simpl; try reflexivity;
        match goal with |- context [?m !! b] => destruct (m !! b) as [e' |] end;
        simpl; try reflexivity;
        destruct (decide (port e' = q)); reflexivity.
    - destruct (decide (b = BROADCAST_MAC)); simpl; try reflexivity;
        match goal with |- context [?m !! b] => destruct (m !! b) as [e' |] end;
        simpl; try reflexivity;
        destruct (decide (port e' = q)); reflexivity. }
  destruct c as [frame q | a b q | | |]; simpl.
  - unfold processFrame_Frame. by rewrite Hpf.
  - by rewrite Hpf.
  - unfold cleanupTable. simpl.
    by destruct (decide (agingTimeout s ≤ 0)).
  - reflexivity.
  - reflexivity.
Qed.

Lemma cleanupTable_advanceCycle (now : time_point) (s : Switch) :
  cleanupTable now (advanceCycle s)
  = (advanceCycle (cleanupTable now s).1, (cleanupTable now s).2).
Proof.
  unfold cleanupTable. simpl. by destruct (decide (agingTimeout s ≤ 0)).
Qed.

(** X8.  The cycle counter is inert.  [advanceCycle] changes [currentCycle]
    and nothing else, and no other member function reads it: a run started
    after any number of [advanceCycle] calls prints exactly what it prints
    without them and ends in the same state with those cycles added.  In
    particular advancing cycles never ages an entry; [cleanupTable] goes by
    the steady clock alone. *)
Theorem X8_advanceCycle_inert (tr : list (Call * time_point)) (s : Switch)
    (n : nat) (now : time_point) :
  macTable (advanceCycle s) = macTable s
  ∧ statistics (advanceCycle s) = statistics s
  ∧ currentCycle (advanceCycle s) = currentCycle s + 1
  ∧ cleanupTable now (Nat.iter n advanceCycle s)
    = (Nat.iter n advanceCycle (cleanupTable now s).1, (cleanupTable now s).2)
  ∧ (run tr (Nat.iter n advanceCycle s)).2 = (run tr s).2
  ∧ (run tr (Nat.iter n advanceCycle s)).1 = Nat.iter n advanceCycle (run tr s).1.
Proof.
  assert (Hrun : ∀ tr s,
    run tr (advanceCycle s) = (advanceCycle (run tr s).1, (run tr s).2)).
  { clear. intros tr. induction tr as [| [c t] tr IH]; intros s.
    - reflexivity.
    - cbn [run fst snd]. rewrite step_advanceCycle_commute. cbn [fst snd].
      by rewrite IH. }
  assert (Hiter : ∀ tr s,
    run tr (Nat.iter n advanceCycle s)
    = (Nat.iter n advanceCycle (run tr s).1, (run tr s).2)).
  { clear -Hrun. induction n as [| n IH]; intros tr s.
    - simpl. by destruct (run tr s).
    - simpl. by rewrite Hrun, IH. }
  split; [reflexivity |]. split; [reflexivity |]. split; [reflexivity |].
  split.
  - clear. induction n as [| n IH]; simpl.
    + by destruct (cleanupTable now s).
    + by rewrite cleanupTable_advanceCycle, IH.
  - by rewrite Hiter.
Qed.

(** ** The listing and the cleanup *)

Lemma printMACTable_None (now : time_point) (s : Switch) :
  printMACTable now s = None ↔ getMACTableSize s = 0.
Proof.
  unfold printMACTable, getMACTableSize.
  destruct (decide (size (macTable s) = 0%nat)) as [H0 | Hn0].
  - rewrite H0. done.
  - split; [discriminate | lia].
Qed.

(** X9.  The listing of [printMACTable] against the queries.  It is the
    "(Empty ...)" message exactly when the table size is zero; otherwise it
    has one row per table entry, and the port column of an address is the
    port the table holds for it.  After a [processFrame] call the listing is
    never the empty one: it shows the frame's source at the arrival port,
    with the whole seconds elapsed since that call as its age, which is 0
    when the clock has not moved. *)
Theorem X9_printMACTable_rows (src dest : string) (p : Z)
    (now now' : time_point) (s : Switch) :
  match printMACTable now s with
  | None => getMACTableSize s = 0
  | Some rows =>
      0 < getMACTableSize s
      ∧ Z.of_nat (size rows) = getMACTableSize s
      ∧ ∀ mac, fst <$> rows !! mac = lookup_port mac s
  end
  ∧ (∃ rows, printMACTable now' (processFrame src dest p now s).1 = Some rows
       ∧ rows !! src = Some (p, duration_cast_seconds (now' - now)))
  ∧ (∃ rows, printMACTable now (processFrame src dest p now s).1 = Some rows
       ∧ rows !! src = Some (p, 0)).
Proof.
  assert (Hafter : ∀ t, ∃ rows,
    printMACTable t (processFrame src dest p now s).1 = Some rows
    ∧ rows !! src = Some (p, duration_cast_seconds (t - now))).
  { intros t.
    destruct (printMACTable t (processFrame src dest p now s).1) as [rows |] eqn:E.
    - exists rows. split; [done |].
      rewrite (printMACTable_row _ _ _ src E), processFrame_macTable.
      by rewrite lookup_insert_eq.
    - apply printMACTable_None in E.
      pose proof (processFrame_size src dest p now s) as Hs.
      assert (0 ≤ getMACTableSize s) by (unfold getMACTableSize; lia).
      destruct (macTable s !! src) eqn:Hsrc; [| lia].
      assert (getMACTableSize s ≠ 0); [| lia].
      rewrite getMACTableSize_zero. intros Hempty.
      rewrite Hempty, lookup_empty in Hsrc. discriminate. }
  split; [| split; [apply Hafter |]].
  - destruct (printMACTable now s) as [rows |] eqn:E.
    + assert (Hsz : Z.of_nat (size rows) = getMACTableSize s).
      { unfold printMACTable in E.
        destruct (decide (size (macTable s) = 0%nat)); [discriminate |].
        injection E as <-. unfold getMACTableSize. by rewrite map_size_fmap. }
      split; [| split; [exact Hsz |]].
      * assert (getMACTableSize s ≠ 0); [| unfold getMACTableSize in *; lia].
        intros H0. apply printMACTable_None with (now := now) in H0.
        rewrite H0 in E. discriminate.
      * intros mac. rewrite (printMACTable_row _ _ _ mac E).
        unfold lookup_port. by destruct (macTable s !! mac).
    + by apply printMACTable_None in E.
  - destruct (Hafter now) as (rows & Hrows & Hrow). exists rows.
    split; [done |]. rewrite Hrow. do 2 f_equal.
    unfold duration_cast_seconds. rewrite Z.sub_diag. apply Z.quot_0_l.
    pose proof ticks_per_second_pos. lia.
Qed.

(** X10.  What the listing shows as older than the timeout is what the
    cleanup removes.  With aging enabled, a row of the listing taken at a
    clock reading has an age above the timeout exactly when [cleanupTable]
    at that reading makes the address unknown; after the cleanup, the
    listing at the same reading has no row older than the timeout. *)
Theorem X10_cleanup_matches_listing (now : time_point) (s : Switch) :
  0 < agingTimeout s →
  (∀ rows mac q age,
     printMACTable now s = Some rows → rows !! mac = Some (q, age) →
     (age > agingTimeout s ↔ isLearned mac (cleanupTable now s).1 = false))
  ∧ (∀ rows mac q age,
     printMACTable now (cleanupTable now s).1 = Some rows →
     rows !! mac = Some (q, age) →
     age ≤ agingTimeout s ∧ lookup_port mac s = Some q).
Proof.
  intros Hpos. split.
  - intros rows mac q age Hrows Hrow.
    rewrite (printMACTable_row _ _ _ mac Hrows) in Hrow.
    unfold isLearned. rewrite bool_decide_eq_false, cleanupTable_lookup by done.
    destruct (macTable s !! mac) as [e |]; [| discriminate].
    simpl in Hrow. injection Hrow as _ <-.
    destruct (decide (elapsed now e > agingTimeout s)) as [Hold | Hyoung].
    + split; [| done]. intros _ [? ?]. discriminate.
    + split; [lia |]. intros H. exfalso. apply H. eauto.
  - intros rows mac q age Hrows Hrow.
    rewrite (printMACTable_row _ _ _ mac Hrows) in Hrow.
    rewrite cleanupTable_lookup in Hrow by done.
    unfold lookup_port.
    destruct (macTable s !! mac) as [e |]; [| discriminate].
    destruct (decide (elapsed now e > agingTimeout s)); [discriminate |].
    simpl in Hrow. injection Hrow as <- <-. split; [lia | done].
Qed.

Lemma X10_witness :
  let s := (processFrame MAC_PC_A MAC_PC_B 1 (seconds 0) (Switch_ctor 4 5)).1 in
  9 > agingTimeout s ↔ isLearned MAC_PC_A (cleanupTable (seconds 9) s).1 = false.
Proof.
  intros s.
  destruct (X10_cleanup_matches_listing (seconds 9) s) as [H _].
  - vm_compute. reflexivity.
  - apply (H ((λ e, (port e, elapsed (seconds 9) e)) <$> macTable s) MAC_PC_A 1 9).
    + vm_compute. reflexivity.
    + vm_compute. reflexivity.
Defined.

Lemma cleanupTable_removed_size (now : time_point) (s : Switch) :
  (cleanupTable now s).2
  = getMACTableSize s - getMACTableSize (cleanupTable now s).1.
Proof.
  destruct (decide (agingTimeout s ≤ 0)) as [Hoff | Hon].
  - rewrite cleanupTable_disabled by done. simpl. lia.
  - unfold getMACTableSize. rewrite cleanupTable_macTable by lia.
    unfold cleanupTable. rewrite decide_False by done. simpl.
    rewrite cleanup_loop_removed.
    pose (P := λ kv : string * MACTableEntry, elapsed now kv.2 > agingTimeout s).
    assert (Hsplit : size (macTable s)
              = (size (filter P (macTable s))
                 + size (filter (λ kv, ¬ P kv) (macTable s)))%nat).
    { rewrite <- map_size_disj_union by apply map_disjoint_filter_complement.
      by rewrite map_filter_union_complement. }
    subst P. cbv beta in Hsplit. lia.
Qed.

Lemma cleanupTable_state (now : time_point) (s : Switch) :
  (cleanupTable now s).1 = set_macTable (macTable (cleanupTable now s).1) s.
Proof.
  unfold cleanupTable.
  destruct (decide (agingTimeout s ≤ 0)); [by destruct s | reflexivity].
Qed.

(** X11.  The number [cleanupTable] reports as removed is the number of
    entries by which the table has become smaller; the table after the
    cleanup is a part of the table before it, with every remaining entry
    unchanged, and the count lies between zero and the size before. *)
Theorem X11_cleanupTable_removed (now : time_point) (s : Switch) :
  (cleanupTable now s).2
    = getMACTableSize s - getMACTableSize (cleanupTable now s).1
  ∧ macTable (cleanupTable now s).1 ⊆ macTable s
  ∧ 0 ≤ (cleanupTable now s).2 ≤ getMACTableSize s.
Proof.
  pose proof (cleanupTable_removed_size now s) as Hr.
  pose proof (cleanupTable_subseteq now s) as Hsub.
  split; [exact Hr |]. split; [exact Hsub |].
  apply map_subseteq_size in Hsub.
  unfold getMACTableSize in *. lia.
Qed.

Lemma elapsed_mono (now now' : time_point) (e : MACTableEntry) :
  now ≤ now' → elapsed now e ≤ elapsed now' e.
Proof.
  intros H. unfold elapsed, duration_cast_seconds.
  apply Z.quot_le_mono; [apply ticks_per_second_pos | lia].
Qed.

Lemma cleanupTable_twice_macTable (now now' : time_point) (s : Switch) :
  now ≤ now' →
  macTable (cleanupTable now' (cleanupTable now s).1).1
  = macTable (cleanupTable now' s).1.
Proof.
  intros Hle.
  destruct (cleanupTable_frame now s) as (_ & Ha & _).
  destruct (decide (agingTimeout s ≤ 0)) as [Hoff | Hon].
  - by rewrite (cleanupTable_disabled now s).
  - apply map_eq. intros mac.
    rewrite !cleanupTable_lookup by lia. rewrite Ha.
    destruct (macTable s !! mac) as [e |]; [| done].
    pose proof (elapsed_mono now now' e Hle).
    destruct (decide (elapsed now e > agingTimeout s)); [| done].
    rewrite decide_True by lia. done.
Qed.

(** X12.  Cleanups compose along the clock.  Running [cleanupTable] at a
    clock reading and again at a later (or the same) reading leaves the
    state a single cleanup at the later reading leaves, and the two removed
    counts add up to that of the single cleanup.  In particular a second
    cleanup at the same reading removes nothing. *)
Theorem X12_cleanupTable_composes (now now' : time_point) (s : Switch) :
  now ≤ now' →
  (cleanupTable now' (cleanupTable now s).1).1 = (cleanupTable now' s).1
  ∧ (cleanupTable now s).2 + (cleanupTable now' (cleanupTable now s).1).2
    = (cleanupTable now' s).2
  ∧ cleanupTable now (cleanupTable now s).1 = ((cleanupTable now s).1, 0).
Proof.
  intros Hle.
  assert (Hstate : ∀ t t', t ≤ t' →
    (cleanupTable t' (cleanupTable t s).1).1 = (cleanupTable t' s).1).
  { intros t t' Ht.
    rewrite (cleanupTable_state t' (cleanupTable t s).1).
    rewrite (cleanupTable_state t' s).
    rewrite cleanupTable_twice_macTable by done.
    rewrite (cleanupTable_state t s). reflexivity. }
  assert (Hcount : ∀ t t', t ≤ t' →
    (cleanupTable t s).2 + (cleanupTable t' (cleanupTable t s).1).2
    = (cleanupTable t' s).2).
  { intros t t' Ht. rewrite !cleanupTable_removed_size.
    rewrite (Hstate t t' Ht). lia. }
  split; [by apply Hstate |]. split; [by apply Hcount |].
  pose proof (Hstate now now ltac:(lia)) as H1.
  pose proof (Hcount now now ltac:(lia)) as H2.
  destruct (cleanupTable now (cleanupTable now s).1) as [s' r'].
  simpl in *. f_equal; [exact H1 | lia].
Qed.

Lemma X12_witness :
  let s := (processFrame MAC_PC_A MAC_PC_B 1 (seconds 0) (Switch_ctor 4 5)).1 in
  (cleanupTable (seconds 9) (cleanupTable (seconds 3) s).1).1
  = (cleanupTable (seconds 9) s).1.
Proof.
  intros s.
  apply (X12_cleanupTable_composes (seconds 3) (seconds 9) s).
  vm_compute. discriminate.
Defined.

(** X13.  A source that has just been seen survives the cleanup: after
    [processFrame] at one clock reading, [cleanupTable] at a reading less
    than [timeout + 1] full seconds later (or with aging disabled) still
    holds the frame's source at the arrival port, with the time stamp of the
    frame. *)
Theorem X13_recent_source_survives (src dest : string) (p : Z)
    (now now' : time_point) (s : Switch) :
  agingTimeout s ≤ 0 ∨ now' - now < seconds (agingTimeout s + 1) →
  macTable (cleanupTable now' (processFrame src dest p now s).1).1 !! src
  = Some (mkEntry p now).
Proof.
  intros H.
  destruct (processFrame_config src dest p now s) as (_ & Ha & _).
  assert (Hsrc : macTable (processFrame src dest p now s).1 !! src
                 = Some (mkEntry p now)).
  { rewrite processFrame_macTable. apply lookup_insert_eq. }
  destruct (decide (agingTimeout s ≤ 0)) as [Hoff | Hon].
  - rewrite cleanupTable_disabled by lia. exact Hsrc.
  - destruct H as [? | Hlt]; [lia |].
    rewrite cleanupTable_lookup, Hsrc by lia.
    rewrite decide_False; [done |].
    unfold elapsed. simpl. rewrite Ha.
    rewrite duration_cast_seconds_gt by lia. lia.
Qed.

Lemma X13_witness :
  macTable (cleanupTable (seconds 5)
              (processFrame MAC_PC_A MAC_PC_B 1 (seconds 0) (Switch_ctor 4 5)).1).1
    !! MAC_PC_A
  = Some (mkEntry 1 (seconds 0)).
Proof.
  apply (X13_recent_source_survives MAC_PC_A MAC_PC_B 1 (seconds 0) (seconds 5)
           (Switch_ctor 4 5)).
  right. vm_compute. reflexivity.
Defined.

(** ** Frames in sequence *)

(** X14.  Traffic follows what was learned.  Once a frame from an address
    (other than the broadcast string) has arrived on port [p], the next
    frame for that address coming from another source is forwarded to [p]
    when it arrives on a different port and filtered when it arrives on [p]
    itself, whatever the table held before. *)
Theorem X14_reply_reaches_learned_port (src src' d1 : string) (p q : Z)
    (t1 t2 : time_point) (s : Switch) :
  src ≠ BROADCAST_MAC →
  src' ≠ src →
  let s1 := (processFrame src d1 p t1 s).1 in
  (processFrame src' src q t2 s1).2.2
  = if decide (p = q) then FILTERING else FORWARDING p.
Proof.
  intros Hb Hne s1. subst s1.
  rewrite processFrame_unfold. simpl. unfold forwarding_decision.
  rewrite decide_False by done.
  rewrite after_learning_macTable, lookup_insert_ne by done.
  rewrite processFrame_macTable, lookup_insert_eq. simpl.
  by destruct (decide (p = q)).
Qed.

Lemma X14_witness :
  (processFrame MAC_SERVER MAC_LAPTOP 2 1
     (processFrame MAC_LAPTOP MAC_SERVER 3 0 (Switch_ctor 4 0)).1).2.2
  = if decide (3 = 2) then FILTERING else FORWARDING 3.
Proof.
  apply (X14_reply_reaches_learned_port MAC_LAPTOP MAC_SERVER MAC_SERVER 3 2 0 1
           (Switch_ctor 4 0)).
  - vm_compute. discriminate.
  - vm_compute. discriminate.
Defined.

Lemma filter_all (P : Z → Prop) `{!∀ x, Decision (P x)} (l : list Z) :
  (∀ x, x ∈ l → P x) → filter P l = l.
Proof.
  induction l as [| x l IH]; intros Hall; [reflexivity |].
  rewrite filter_cons, decide_True by (apply Hall; left).
  f_equal. apply IH. intros y Hy. apply Hall. by right.
Qed.

(** X15.  The flood list of [processFrame] has one port less than the switch
    when the arrival port is one of its ports, and all its ports when it is
    not; it never contains the arrival port and has no port twice.  For a
    switch constructed with zero or a negative number of ports it is
    empty. *)
Theorem X15_flooding_ports_length (n p : Z) :
  Z.of_nat (List.length (flooding_ports n p))
    = Z.max 0 (if decide (1 ≤ p ≤ n) then n - 1 else n)
  ∧ (p ∉ flooding_ports n p)
  ∧ NoDup (flooding_ports n p).
Proof.
  split; [| split].
  - unfold flooding_ports. destruct (decide (1 ≤ p ≤ n)) as [Hin | Hout].
    + replace n with ((p - 1) + (1 + (n - p))) at 1 by lia.
      rewrite seqZ_app by lia.
      rewrite (seqZ_cons (1 + (p - 1))) by lia.
      rewrite filter_app, filter_cons, decide_False by lia.
      rewrite !filter_all by (intros x; rewrite elem_of_seqZ; lia).
      rewrite length_app, !length_seqZ. lia.
    + rewrite filter_all by (intros x; rewrite elem_of_seqZ; lia).
      rewrite length_seqZ. lia.
  - rewrite flooding_ports_elem. lia.
  - apply NoDup_filter, NoDup_seqZ.
Qed.

(** X16.  The first frame on an empty table (a new switch, or one just
    cleared or fully aged out): its source is learned as a new address and
    becomes the only entry; the frame is flooded, as broadcast or as unknown
    unicast, unless it is addressed to its own source, in which case it is
    filtered. *)
Theorem X16_first_frame (src dest : string) (p : Z) (now : time_point)
    (s : Switch) :
  macTable s = ∅ →
  let r := processFrame src dest p now s in
  r.2.1 = LEARNING
  ∧ macTable r.1 = {[src := mkEntry p now]}
  ∧ getMACTableSize r.1 = 1
  ∧ r.2.2 = (if decide (dest = BROADCAST_MAC)
             then BROADCAST (flooding_ports (numPorts s) p)
             else if decide (dest = src) then FILTERING
                  else UNKNOWN_UNICAST (flooding_ports (numPorts s) p)).
Proof.
  intros Hempty r.
  destruct (processFrame_empty_table src dest p now s Hempty) as (Hl & Hm & Hf).
  subst r. split; [exact Hl |]. split; [exact Hm |]. split; [| exact Hf].
  unfold getMACTableSize. rewrite Hm, map_size_singleton. done.
Qed.

Lemma X16_witness :
  (processFrame MAC_PC_A MAC_PC_A 1 0 (Switch_ctor 4 5)).2 = (LEARNING, FILTERING).
Proof.
  destruct (X16_first_frame MAC_PC_A MAC_PC_A 1 0 (Switch_ctor 4 5)) as (Hl & _ & _ & Hf).
  - reflexivity.
  - destruct (processFrame MAC_PC_A MAC_PC_A 1 0 (Switch_ctor 4 5)).2 as [l f].
    simpl in *. rewrite Hl, Hf. reflexivity.
Defined.

(** ** The demonstrations of main.cpp *)

Lemma no_cleanup_in_runSimulation : CallCleanupTable ∉ runSimulation_calls.
Proof.
  unfold runSimulation_calls. rewrite !not_elem_of_cons.
  repeat split; try discriminate. apply not_elem_of_nil.
Qed.

(** X17.  [runSimulation] comes out the same under every clock.  Whatever
    the twelve clock readings are, the twelve frames are handled as listed
    below, the four stations end up at ports 1 to 4, and the statistics are
    12 frames, 4 learning events, 8 forwards and 4 floods.  The frame that
    main.cpp announces as "PC-A tries to reach new PC-D (unknown
    destination)" is in fact forwarded to port 4, PC-D having been learned
    from its own broadcast just before. *)
Theorem X17_runSimulation (clocks : list time_point) :
  List.length clocks = 12%nat →
  let r := run (zip runSimulation_calls clocks) (Switch_ctor 8 300) in
  r.2 = [OutFrame (LEARNING, BROADCAST [2; 3; 4; 5; 6; 7; 8]);
         OutFrame (LEARNING, FORWARDING 1);
         OutFrame (REFRESH, UNKNOWN_UNICAST [2; 3; 4; 5; 6; 7; 8]);
         OutFrame (LEARNING, FORWARDING 1);
         OutFrame (REFRESH, FORWARDING 2);
         OutFrame (REFRESH, FORWARDING 3);
         OutFrame (REFRESH, FORWARDING 1);
         OutFrame (LEARNING, BROADCAST [1; 2; 3; 5; 6; 7; 8]);
         OutFrame (REFRESH, FORWARDING 4);
         OutFrame (REFRESH, FORWARDING 1);
         OutFrame (REFRESH, FORWARDING 4);
         OutFrame (REFRESH, BROADCAST [1; 3; 4; 5; 6; 7; 8])]
  ∧ statistics r.1 = (12, 4, 8, 4)
  ∧ getMACTableSize r.1 = 4
  ∧ lookup_port MAC_PC_A r.1 = Some 1
  ∧ lookup_port MAC_PC_B r.1 = Some 2
  ∧ lookup_port MAC_PC_C r.1 = Some 3
  ∧ lookup_port MAC_PC_D r.1 = Some 4.
Proof.
  intros Hlen r. subst r.
  set (tr := zip runSimulation_calls clocks).
  set (tr0 := zip runSimulation_calls (replicate 12 0)).
  assert (Hc : tr.*1 = runSimulation_calls).
  { apply fst_zip. rewrite Hlen. done. }
  assert (Hc0 : tr0.*1 = runSimulation_calls) by reflexivity.
  destruct (run_sim tr tr0 (Switch_ctor 8 300) (Switch_ctor 8 300)) as [Hsim Hout].
  - transitivity runSimulation_calls; [exact Hc | symmetry; exact Hc0].
  - apply same_but_timestamps_refl.
  - right. rewrite Hc. apply no_cleanup_in_runSimulation.
  - split; [rewrite Hout; vm_compute; reflexivity |].
    split; [destruct Hsim as (_ & _ & _ & _ & ->); vm_compute; reflexivity |].
    split.
    { unfold getMACTableSize.
      rewrite <- (map_size_fmap port (macTable (run tr (Switch_ctor 8 300)).1)).
      destruct Hsim as (-> & _). vm_compute. reflexivity. }
    unfold lookup_port. rewrite !(same_lookup_port _ _ Hsim).
    vm_compute. repeat split; reflexivity.
Qed.

Lemma X17_witness :
  statistics
    (run (zip runSimulation_calls (seconds <$> seqZ 0 12)) (Switch_ctor 8 300)).1
  = (12, 4, 8, 4).
Proof.
  destruct (X17_runSimulation (seconds <$> seqZ 0 12)) as (_ & H & _).
  - reflexivity.
  - exact H.
Defined.

Lemma cleanupTable_all_aged (now : time_point) (s : Switch) :
  0 < agingTimeout s →
  (∀ mac e, macTable s !! mac = Some e → elapsed now e > agingTimeout s) →
  cleanupTable now s = (set_macTable ∅ s, getMACTableSize s).
Proof.
  intros Hpos Hall.
  assert (Hm : macTable (cleanupTable now s).1 = ∅).
  { apply map_eq. intros mac. rewrite cleanupTable_lookup, lookup_empty by done.
    destruct (macTable s !! mac) as [e |] eqn:He; [| done].
    by rewrite decide_True by (by apply (Hall mac)). }
  pose proof (cleanupTable_removed_size now s) as Hr.
  pose proof (cleanupTable_state now s) as Hs.
  rewrite Hm in Hs.
  unfold getMACTableSize in Hr at 2. rewrite Hm, map_size_empty in Hr.
  destruct (cleanupTable now s) as [s' r']. simpl in *.
  f_equal; [exact Hs | lia].
Qed.

(** X18.  [demonstrateAging] shows what it announces under every clock that
    behaves: if the clock does not go back between the two frames and
    [sleep_for(seconds(6))] lets at least six seconds pass before the
    cleanup, then both addresses are aged out (removed = 2, table empty),
    and the frame that follows is learned again as new and flooded, leaving
    PC-A as the only entry. *)
Theorem X18_demonstrateAging (t1 t2 t3 t4 : time_point) :
  t1 ≤ t2 →
  t2 + seconds 6 ≤ t3 →
  let r := run (zip demonstrateAging_calls [t1; t2; t3; t4]) (Switch_ctor 4 5) in
  r.2 = [OutFrame (LEARNING, UNKNOWN_UNICAST [2; 3; 4]);
         OutFrame (LEARNING, FORWARDING 1);
         OutCleanup 2;
         OutFrame (LEARNING, UNKNOWN_UNICAST [2; 3; 4])]
  ∧ macTable r.1 = {[MAC_PC_A := mkEntry 1 t4]}
  ∧ statistics r.1 = (3, 3, 1, 2).
Proof.
  intros H12 H23 r. subst r.
  set (s2 := mkSwitch (<[MAC_PC_B := mkEntry 2 t2]> (<[MAC_PC_A := mkEntry 1 t1]> ∅))
               4 5 0 2 2 1 1).
  assert (Hclean : cleanupTable t3 s2 = (set_macTable ∅ s2, 2)).
  { rewrite cleanupTable_all_aged.
    - reflexivity.
    - simpl. lia.
    - intros mac e. subst s2. simpl.
      destruct (decide (mac = MAC_PC_B)) as [-> | HneB].
      + rewrite lookup_insert_eq. intros [= <-].
        unfold elapsed. simpl. apply duration_cast_seconds_gt; [lia |].
        unfold seconds in *. lia.
      + rewrite lookup_insert_ne by done.
        destruct (decide (mac = MAC_PC_A)) as [-> | HneA].
        * rewrite lookup_insert_eq. intros [= <-].
          unfold elapsed. simpl. apply duration_cast_seconds_gt; [lia |].
          unfold seconds in *. lia.
        * rewrite lookup_insert_ne by done. rewrite lookup_empty. discriminate. }
  unfold demonstrateAging_calls. cbn [zip zip_with run step fst snd].
  change (processFrame MAC_PC_B MAC_PC_A 2 t2
            (processFrame MAC_PC_A MAC_PC_B 1 t1 (Switch_ctor 4 5)).1)
    with (s2, (LEARNING, FORWARDING 1)).
  cbn [fst snd]. rewrite Hclean. cbn [fst snd].
  split; [| split]; reflexivity.
Qed.

Lemma X18_witness :
  macTable (run (zip demonstrateAging_calls
                   [seconds 0; seconds 0; seconds 6; seconds 6])
              (Switch_ctor 4 5)).1
  = {[MAC_PC_A := mkEntry 1 (seconds 6)]}.
Proof.
  destruct (X18_demonstrateAging (seconds 0) (seconds 0) (seconds 6) (seconds 6))
    as (_ & H & _).
  - vm_compute. discriminate.
  - vm_compute. discriminate.
  - exact H.
Defined.

(** X19.  [demonstrateMACMove] comes out the same under every clock: the
    laptop is learned at port 1, the server's reply is forwarded to port 1,
    and the laptop's frame from port 3 is reported as a move from port 1 and
    forwarded to the server on port 2.  Afterwards the laptop is at port 3,
    the table has two entries, and the statistics are 3 frames, 2 learning
    events (the move is not one), 2 forwards and 1 flood. *)
Theorem X19_demonstrateMACMove (clocks : list time_point) :
  List.length clocks = 3%nat →
  let r := run (zip demonstrateMACMove_calls clocks) (Switch_ctor 4 0) in
  r.2 = [OutFrame (LEARNING, UNKNOWN_UNICAST [2; 3; 4]);
         OutFrame (LEARNING, FORWARDING 1);
         OutFrame (UPDATE 1, FORWARDING 2)]
  ∧ statistics r.1 = (3, 2, 2, 1)
  ∧ getMACTableSize r.1 = 2
  ∧ lookup_port MAC_LAPTOP r.1 = Some 3
  ∧ lookup_port MAC_SERVER r.1 = Some 2.
Proof.
  intros Hlen r. subst r.
  set (tr := zip demonstrateMACMove_calls clocks).
  set (tr0 := zip demonstrateMACMove_calls (replicate 3 0)).
  assert (Hc : tr.*1 = demonstrateMACMove_calls).
  { apply fst_zip. rewrite Hlen. done. }
  assert (Hc0 : tr0.*1 = demonstrateMACMove_calls) by reflexivity.
  destruct (run_sim tr tr0 (Switch_ctor 4 0) (Switch_ctor 4 0)) as [Hsim Hout].
  - transitivity demonstrateMACMove_calls; [exact Hc | symmetry; exact Hc0].
  - apply same_but_timestamps_refl.
  - left. simpl. lia.
  - split; [rewrite Hout; vm_compute; reflexivity |].
    split; [destruct Hsim as (_ & _ & _ & _ & ->); vm_compute; reflexivity |].
    split.
    { unfold getMACTableSize.
      rewrite <- (map_size_fmap port (macTable (run tr (Switch_ctor 4 0)).1)).
      destruct Hsim as (-> & _). vm_compute. reflexivity. }
    unfold lookup_port. rewrite !(same_lookup_port _ _ Hsim).
    vm_compute. repeat split; reflexivity.
Qed.

Lemma X19_witness :
  lookup_port MAC_LAPTOP
    (run (zip demonstrateMACMove_calls [seconds 0; seconds 1; seconds 2])
       (Switch_ctor 4 0)).1
  = Some 3.
Proof.
  destruct (X19_demonstrateMACMove [seconds 0; seconds 1; seconds 2])
    as (_ & _ & _ & H & _).
  - reflexivity.
  - exact H.
Defined.
